(** * Scroll navigation controller of the Alphintra landing page

    A shallow embedding of the navigation logic of [ScrollSections]
    (the step model, [syncProgress], [animateSectionChange], [goToStep],
    the wheel / touch / key handlers) and of the horizontal gallery
    [PortfolioHorizontal] ([slideTo] and the [next] / [prev] pair it
    exposes through [navRef]).

    Conventions of the model.
    - React refs ([useRef]) and React state ([useState]) are fields of one
      record, updated by explicit state passing; a state setter called
      with an updater function is applied at once.
    - Everything a function does to the outside (a GSAP tween, a value
      handed to [onScrollProgress]) is appended to a list of [Effect]s.
    - The DOM is an argument of every operation: the section elements the
      container holds when the operation runs, the gallery track, and the
      window metrics.
    - Reading a property of [undefined] raises a [TypeError]; operations
      return a [Result].
    - Pixel offsets, wheel deltas and step indices are integers ([Z]);
      the scroll progress is a rational ([Q]).
    - Left out, as they touch none of the state above: the parameters of
      the tweens, the idle tweens of the hero text and their killing,
      [runningTweens], [e.preventDefault()], the tilt of the gallery
      cards and everything that is rendered. *)

From Stdlib Require Import ZArith QArith Qabs Lia.
From stdpp Require Import base decidable list gmap sets strings.
Local Open Scope Z_scope.

(** ** Section data and the step model *)

(** [detail?: ReactElement | string]: an element is opaque here, a string
    keeps its contents since the empty string is falsy. *)
Inductive DetailContent :=
| DetailString (text : string)
| DetailElement.

Record SectionData := {
  section_id : string;
  detail : option DetailContent;   (* None: the property is absent *)
  isPortfolio : option bool;       (* None: the property is absent *)
}.

Inductive SubStep := title | detailStep | portfolio.

Record Step := { sectionIndex : nat; subStep : SubStep }.

Global Instance SubStep_eq_dec : EqDecision SubStep.
Proof. solve_decision. Defined.
Global Instance Step_eq_dec : EqDecision Step.
Proof. solve_decision. Defined.

(** JavaScript truthiness of the two optional properties. *)
Definition truthy_detail (d : option DetailContent) : bool :=
  match d with
  | None => false
  | Some (DetailString text) => negb (String.eqb text "")
  | Some DetailElement => true
  end.

Definition truthy_flag (b : option bool) : bool :=
  match b with
  | Some true => true
  | _ => false
  end.

(** The body of the [sections.forEach((s, i) => ...)] callback: it pushes
    onto the array [steps] built so far. *)
Definition push_section (steps : list Step) (i : nat) (s : SectionData) : list Step :=
  let steps := steps ++ [{| sectionIndex := i; subStep := title |}] in
  if truthy_flag (isPortfolio s) then
    steps ++ [{| sectionIndex := i; subStep := portfolio |}]
  else if truthy_detail (detail s) then
    steps ++ [{| sectionIndex := i; subStep := detailStep |}]
  else steps.

(** [forEach] from index [i] on. *)
Fixpoint forEach_push (i : nat) (secs : list SectionData) (steps : list Step) : list Step :=
  match secs with
  | [] => steps
  | s :: rest => forEach_push (S i) rest (push_section steps i s)
  end.

(** [const steps: Step[] = []; sections.forEach(...)]. *)
Definition build_steps (secs : list SectionData) : list Step :=
  forEach_push 0 secs [].

(** What one section contributes. *)
Definition section_run (i : nat) (s : SectionData) : list Step :=
  push_section [] i s.

(** The section list of the source. *)
Definition alphintra_sections : list SectionData :=
  [ {| section_id := "hello"; detail := Some (DetailString ""); isPortfolio := None |};
    {| section_id := "hero"; detail := Some DetailElement; isPortfolio := None |};
    {| section_id := "web"; detail := Some DetailElement; isPortfolio := None |};
    {| section_id := "ai"; detail := Some DetailElement; isPortfolio := None |};
    {| section_id := "enterprise"; detail := Some DetailElement; isPortfolio := None |};
    {| section_id := "design"; detail := Some DetailElement; isPortfolio := None |};
    {| section_id := "portfolio"; detail := None; isPortfolio := Some true |};
    {| section_id := "process"; detail := Some DetailElement; isPortfolio := None |};
    {| section_id := "team"; detail := Some DetailElement; isPortfolio := None |};
    {| section_id := "contact"; detail := Some DetailElement; isPortfolio := None |} ].

(** Array indexing with a JavaScript number: [arr[i]] is [undefined]
    for a negative or too large index. *)
Definition index {A} (l : list A) (i : Z) : option A :=
  if i <? 0 then None else l !! Z.to_nat i.

(** ** The document *)

(** One [.scroll-section] element: its [offsetTop] and the number of
    [.char] spans in it. *)
Record SectionEl := { offsetTop : Z; chars : nat }.

(** What the handlers can see of the page when they run.
    [scroll_sections] is [containerRef.current?.querySelectorAll('.scroll-section')]
    ([None] when the container ref is null), [track] tells whether
    [trackRef.current] of the gallery is set. *)
Record Dom := {
  scroll_sections : option (list SectionEl);
  track : bool;
  scrollY : Q;
  scrollHeight : Z;
  innerHeight : Z;
}.

(** ** Effects and results *)

Inductive Way := up | down.

Inductive Effect :=
| TextIn (sectionIndex : nat) (isHero : bool)   (* entrance tweens of a section's text *)
| TextOut (sectionIndex : nat) (way : Way)       (* exit tweens of a section's text *)
| ScrollTo (y : Z)                               (* gsap.to(window, { scrollTo: { y } }) *)
| SlideTrack (index : Z)                         (* gsap.to(track, { x: -index * innerWidth }) *)
| Progress (p : Q)                               (* onScrollProgress(p) *)
| GoToCall (stepIndex : Z).                      (* a handler calls goToStep(stepIndex) *)

Inductive Result (A : Type) :=
| Ok (a : A)
| TypeError.
Arguments Ok {A} a.
Arguments TypeError {A}.

(** ** The horizontal gallery (PortfolioHorizontal) *)

Definition projects : list string :=
  ["CiperLux"; "NexusAI"; "CloudVault"; "Strategy Hub"]%string.

(** [currentCard] and [isMoving] are the refs of the component;
    [slideTweens] counts the track tweens that have not completed. *)
Record Gallery := {
  currentCard : Z;
  isMoving : bool;
  slideTweens : nat;
}.

Definition gallery_init : Gallery :=
  {| currentCard := 0; isMoving := false; slideTweens := 0 |}.

(** [slideTo(index)]: the boolean it returns, the gallery afterwards and
    the tween it starts. *)
Definition slideTo (trackRef : bool) (index : Z) (g : Gallery)
  : bool * Gallery * list Effect :=
  if isMoving g then (true, g, [])
  else if (index <? 0) || (Z.of_nat (length projects) <=? index) then (false, g, [])
  else
    let g1 := {| currentCard := index; isMoving := true; slideTweens := slideTweens g |} in
    if negb trackRef then (false, g1, [])
    else ( true,
           {| currentCard := index; isMoving := true; slideTweens := S (slideTweens g) |},
           [SlideTrack index] ).

(** The object stored in [navRef.current]. *)
Definition nav_next (trackRef : bool) (g : Gallery) := slideTo trackRef (currentCard g + 1) g.
Definition nav_prev (trackRef : bool) (g : Gallery) := slideTo trackRef (currentCard g - 1) g.

(** [onComplete] of the track tween. *)
Definition slide_complete (g : Gallery) : Gallery :=
  {| currentCard := currentCard g; isMoving := false; slideTweens := pred (slideTweens g) |}.

(** What can happen to the gallery alone. *)
Inductive GalleryCall :=
| CallNext
| CallPrev
| CallSlideTo (index : Z)
| CallSlideComplete.

Definition gallery_enabled (c : GalleryCall) (g : Gallery) : Prop :=
  match c with
  | CallSlideComplete => (0 < slideTweens g)%nat
  | _ => True
  end.

Definition gallery_step (trackRef : bool) (c : GalleryCall) (g : Gallery) : Gallery :=
  match c with
  | CallNext => (nav_next trackRef g).1.2
  | CallPrev => (nav_prev trackRef g).1.2
  | CallSlideTo i => (slideTo trackRef i g).1.2
  | CallSlideComplete => slide_complete g
  end.

Inductive gallery_reachable : Gallery -> Prop :=
| gallery_reach_init : gallery_reachable gallery_init
| gallery_reach_step trackRef c g :
    gallery_reachable g -> gallery_enabled c g ->
    gallery_reachable (gallery_step trackRef c g).

(** ** The progress reporter *)

(** The value [syncProgress] hands to [onScrollProgress]. *)
Definition syncProgress (dom : Dom) : Q :=
  let scrollTop := scrollY dom in
  let docHeight := scrollHeight dom - innerHeight dom in
  if 0 <? docHeight then (scrollTop / inject_Z docHeight)%Q else 0%Q.

(** The formula of the specification, for comparison with [syncProgress]. *)
Definition clamp01 (q : Q) : Q :=
  if Qlt_le_dec q 0 then 0%Q else if Qlt_le_dec 1 q then 1%Q else q.

Definition spec_progress (dom : Dom) : Q :=
  let denominator := scrollHeight dom - innerHeight dom in
  if denominator <=? 0 then 0%Q
  else clamp01 (scrollY dom / inject_Z denominator)%Q.

(** ** Navigation state (ScrollSections) *)

Record State := {
  currentStep : Z;                    (* useState(0) *)
  currentStepRef : Z;                 (* useRef(0) *)
  isAnimating : bool;
  wheelAccum : Z;
  wheelTimer : bool;                  (* a reset timeout is pending *)
  visibleDetails : gset nat;
  portfolioVisible : bool;
  portfolioNavRef : option Gallery;   (* the gallery behind navRef.current *)
  activeTextSections : gset nat;
  scrollTweens : nat;                 (* window scroll tweens not yet completed *)
  touchStartY : Z;
  heroTimer : bool;                   (* the delayed hero entrance is pending *)
}.

Definition set_current (i : Z) (s : State) : State :=
  {| currentStep := i; currentStepRef := i; isAnimating := isAnimating s;
     wheelAccum := wheelAccum s; wheelTimer := wheelTimer s;
     visibleDetails := visibleDetails s; portfolioVisible := portfolioVisible s;
     portfolioNavRef := portfolioNavRef s; activeTextSections := activeTextSections s;
     scrollTweens := scrollTweens s; touchStartY := touchStartY s;
     heroTimer := heroTimer s |}.

Definition set_isAnimating (b : bool) (s : State) : State :=
  {| currentStep := currentStep s; currentStepRef := currentStepRef s; isAnimating := b;
     wheelAccum := wheelAccum s; wheelTimer := wheelTimer s;
     visibleDetails := visibleDetails s; portfolioVisible := portfolioVisible s;
     portfolioNavRef := portfolioNavRef s; activeTextSections := activeTextSections s;
     scrollTweens := scrollTweens s; touchStartY := touchStartY s;
     heroTimer := heroTimer s |}.

Definition set_wheel (accum : Z) (timer : bool) (s : State) : State :=
  {| currentStep := currentStep s; currentStepRef := currentStepRef s;
     isAnimating := isAnimating s;
     wheelAccum := accum; wheelTimer := timer;
     visibleDetails := visibleDetails s; portfolioVisible := portfolioVisible s;
     portfolioNavRef := portfolioNavRef s; activeTextSections := activeTextSections s;
     scrollTweens := scrollTweens s; touchStartY := touchStartY s;
     heroTimer := heroTimer s |}.

Definition set_visibleDetails (v : gset nat) (s : State) : State :=
  {| currentStep := currentStep s; currentStepRef := currentStepRef s;
     isAnimating := isAnimating s;
     wheelAccum := wheelAccum s; wheelTimer := wheelTimer s;
     visibleDetails := v; portfolioVisible := portfolioVisible s;
     portfolioNavRef := portfolioNavRef s; activeTextSections := activeTextSections s;
     scrollTweens := scrollTweens s; touchStartY := touchStartY s;
     heroTimer := heroTimer s |}.

Definition set_portfolioVisible (b : bool) (s : State) : State :=
  {| currentStep := currentStep s; currentStepRef := currentStepRef s;
     isAnimating := isAnimating s;
     wheelAccum := wheelAccum s; wheelTimer := wheelTimer s;
     visibleDetails := visibleDetails s; portfolioVisible := b;
     portfolioNavRef := portfolioNavRef s; activeTextSections := activeTextSections s;
     scrollTweens := scrollTweens s; touchStartY := touchStartY s;
     heroTimer := heroTimer s |}.

Definition set_gallery (g : option Gallery) (s : State) : State :=
  {| currentStep := currentStep s; currentStepRef := currentStepRef s;
     isAnimating := isAnimating s;
     wheelAccum := wheelAccum s; wheelTimer := wheelTimer s;
     visibleDetails := visibleDetails s; portfolioVisible := portfolioVisible s;
     portfolioNavRef := g; activeTextSections := activeTextSections s;
     scrollTweens := scrollTweens s; touchStartY := touchStartY s;
     heroTimer := heroTimer s |}.

Definition set_activeTextSections (a : gset nat) (s : State) : State :=
  {| currentStep := currentStep s; currentStepRef := currentStepRef s;
     isAnimating := isAnimating s;
     wheelAccum := wheelAccum s; wheelTimer := wheelTimer s;
     visibleDetails := visibleDetails s; portfolioVisible := portfolioVisible s;
     portfolioNavRef := portfolioNavRef s; activeTextSections := a;
     scrollTweens := scrollTweens s; touchStartY := touchStartY s;
     heroTimer := heroTimer s |}.

Definition set_scrollTweens (n : nat) (s : State) : State :=
  {| currentStep := currentStep s; currentStepRef := currentStepRef s;
     isAnimating := isAnimating s;
     wheelAccum := wheelAccum s; wheelTimer := wheelTimer s;
     visibleDetails := visibleDetails s; portfolioVisible := portfolioVisible s;
     portfolioNavRef := portfolioNavRef s; activeTextSections := activeTextSections s;
     scrollTweens := n; touchStartY := touchStartY s;
     heroTimer := heroTimer s |}.

Definition set_touchStartY (y : Z) (s : State) : State :=
  {| currentStep := currentStep s; currentStepRef := currentStepRef s;
     isAnimating := isAnimating s;
     wheelAccum := wheelAccum s; wheelTimer := wheelTimer s;
     visibleDetails := visibleDetails s; portfolioVisible := portfolioVisible s;
     portfolioNavRef := portfolioNavRef s; activeTextSections := activeTextSections s;
     scrollTweens := scrollTweens s; touchStartY := y;
     heroTimer := heroTimer s |}.

Definition set_heroTimer (b : bool) (s : State) : State :=
  {| currentStep := currentStep s; currentStepRef := currentStepRef s;
     isAnimating := isAnimating s;
     wheelAccum := wheelAccum s; wheelTimer := wheelTimer s;
     visibleDetails := visibleDetails s; portfolioVisible := portfolioVisible s;
     portfolioNavRef := portfolioNavRef s; activeTextSections := activeTextSections s;
     scrollTweens := scrollTweens s; touchStartY := touchStartY s;
     heroTimer := b |}.

(** An operation ends with a state and the effects it fired, or throws. *)
Definition Out : Type := Result (State * list Effect).

(** Sequencing: run [k] on the state [o] left, after the effects of [o]. *)
Definition and_then (o : Out) (k : State -> Out) : Out :=
  match o with
  | TypeError => TypeError
  | Ok (s, e1) =>
      match k s with
      | TypeError => TypeError
      | Ok (s', e2) => Ok (s', e1 ++ e2)
      end
  end.

Inductive Key :=
| KeyArrowDown | KeyPageDown | KeySpace
| KeyArrowUp | KeyPageUp
| KeyHome | KeyEnd
| KeyArrowRight | KeyArrowLeft
| KeyOther.

(** What the event loop delivers to the page. *)
Inductive Event :=
| EvWheel (deltaY : Z)
| EvTouchStart (clientY : Z)
| EvTouchEnd (clientY : Z)
| EvKeyDown (key : Key)
| EvNavDot (section : nat)          (* click on a side navigation dot *)
| EvGalleryDot (card : nat)         (* click on a gallery progress dot *)
| EvScroll                          (* native scroll event *)
| EvScrollTweenUpdate               (* onUpdate of the window tween *)
| EvScrollTweenComplete             (* onComplete of the window tween *)
| EvSlideComplete                   (* onComplete of the track tween *)
| EvWheelTimeout                    (* the 200ms wheel timer fires *)
| EvHeroEntrance.                   (* the delayed call of the initial entrance *)

(** [Array.prototype.findIndex]. *)
Fixpoint findIndex_from {A} (p : A -> bool) (l : list A) (i : Z) : Z :=
  match l with
  | [] => -1
  | x :: rest => if p x then i else findIndex_from p rest (i + 1)
  end.

Definition findIndex {A} (p : A -> bool) (l : list A) : Z := findIndex_from p l 0.

Definition THRESHOLD : Z := 50.

Section Controller.

Variable sections : list SectionData.

Definition steps : list Step := build_steps sections.

Definition getSectionElements (dom : Dom) (sectionIndex : nat) : option SectionEl :=
  match scroll_sections dom with
  | None => None
  | Some sectionEls => sectionEls !! sectionIndex
  end.

Definition animateTextIn (dom : Dom) (sectionIndex : nat) (isHero : bool) (s : State)
  : State * list Effect :=
  match getSectionElements dom sectionIndex with
  | None => (s, [])
  | Some els =>
      if (chars els =? 0)%nat then (s, [])
      else (set_activeTextSections ({[sectionIndex]} ∪ activeTextSections s) s,
            [TextIn sectionIndex isHero])
  end.

Definition animateTextOut (dom : Dom) (sectionIndex : nat) (way : Way) (s : State)
  : State * list Effect :=
  match getSectionElements dom sectionIndex with
  | None => (s, [])
  | Some els =>
      if (chars els =? 0)%nat then (s, [])
      else (set_activeTextSections (activeTextSections s ∖ {[sectionIndex]}) s,
            [TextOut sectionIndex way])
  end.

Definition animateSectionChange (dom : Dom) (fromStep toStep : Z) (s : State) : Out :=
  let from := index steps fromStep in
  let to := index steps toStep in
  let way := if fromStep <? toStep then down else up in
  let out :=
    match from, to with
    | Some f, Some t =>
        if decide (sectionIndex f = sectionIndex t) then (s, [])
        else if decide (sectionIndex f ∈ activeTextSections s)
             then animateTextOut dom (sectionIndex f) way s
             else (s, [])
    | _, _ => (s, [])
    end in
  match to with
  | None => TypeError                      (* to.subStep of undefined *)
  | Some t =>
      match subStep t with
      | title =>
          if decide (sectionIndex t ∈ activeTextSections out.1) then Ok out
          else
            let isHero := (sectionIndex t =? 0)%nat in
            let inn := animateTextIn dom (sectionIndex t) isHero out.1 in
            Ok (inn.1, out.2 ++ inn.2)
      | _ => Ok out
      end
  end.

(** The visibility part of [goToStep]. *)
Definition update_visibility (step : Step) (s : State) : Out :=
  match subStep step with
  | detailStep =>
      Ok (set_visibleDetails ({[sectionIndex step]} ∪ visibleDetails s) s, [])
  | title =>
      let s := set_visibleDetails (visibleDetails s ∖ {[sectionIndex step]}) s in
      match sections !! sectionIndex step with
      | None => TypeError                  (* sections[i].isPortfolio of undefined *)
      | Some sec =>
          if truthy_flag (isPortfolio sec) then Ok (set_portfolioVisible false s, [])
          else Ok (s, [])
      end
  | portfolio => Ok (set_portfolioVisible true s, [])
  end.

(** The camera part of [goToStep]: the window tween towards the section. *)
Definition scroll_to_section (dom : Dom) (step : Step) (s : State) : Out :=
  match scroll_sections dom with
  | None => Ok (s, [])
  | Some sectionEls =>
      match sectionEls !! sectionIndex step with
      | None => Ok (s, [])
      | Some targetEl =>
          Ok (set_scrollTweens (S (scrollTweens s)) s, [ScrollTo (offsetTop targetEl)])
      end
  end.

Definition clamp_step (stepIndex : Z) : Z :=
  Z.max 0 (Z.min stepIndex (Z.of_nat (length steps) - 1)).

Definition goToStep (dom : Dom) (stepIndex : Z) (s : State) : Out :=
  let clamped := clamp_step stepIndex in
  if clamped =? currentStepRef s then Ok (s, [])
  else if isAnimating s then Ok (s, [])
  else
    let previousStep := currentStepRef s in
    let s := set_isAnimating true (set_current clamped s) in
    match index steps clamped with
    | None => TypeError                    (* step.subStep of undefined *)
    | Some step =>
        and_then (update_visibility step s) (fun s =>
        and_then (animateSectionChange dom previousStep clamped s) (fun s =>
        scroll_to_section dom step s))
    end.

(** A handler calling [goToStep]: the call is recorded, then made. *)
Definition call_goToStep (dom : Dom) (stepIndex : Z) (s : State) : Out :=
  and_then (Ok (s, [GoToCall stepIndex])) (goToStep dom stepIndex).

(** [wheelAccum.current += e.deltaY], with the timer set anew. *)
Definition accumulate (deltaY : Z) (s : State) : State :=
  set_wheel (wheelAccum s + deltaY) true s.

Definition onWheel (dom : Dom) (deltaY : Z) (s : State) : Out :=
  match index steps (currentStepRef s) with
  | None => TypeError                      (* step.subStep of undefined *)
  | Some step =>
      if decide (subStep step = portfolio) then
        if isAnimating s then Ok (s, [])
        else
          let s := accumulate deltaY s in
          if THRESHOLD <=? Z.abs (wheelAccum s) then
            let direction := if 0 <? wheelAccum s then 1 else -1 in
            let s := set_wheel 0 (wheelTimer s) s in
            match portfolioNavRef s with
            | Some g =>
                if 0 <? direction then
                  let r := nav_next (track dom) g in
                  let s := set_gallery (Some r.1.2) s in
                  if r.1.1 then Ok (s, r.2)
                  else and_then (Ok (s, r.2)) (fun s => call_goToStep dom (currentStepRef s + 1) s)
                else
                  let r := nav_prev (track dom) g in
                  let s := set_gallery (Some r.1.2) s in
                  if r.1.1 then Ok (s, r.2)
                  else and_then (Ok (s, r.2)) (fun s => call_goToStep dom (currentStepRef s - 1) s)
            | None => call_goToStep dom (currentStepRef s + direction) s
            end
          else Ok (s, [])
      else if isAnimating s then Ok (s, [])
      else
        let s := accumulate deltaY s in
        if THRESHOLD <=? Z.abs (wheelAccum s) then
          let direction := if 0 <? wheelAccum s then 1 else -1 in
          let s := set_wheel 0 (wheelTimer s) s in
          call_goToStep dom (currentStepRef s + direction) s
        else Ok (s, [])
  end.

Definition onTouchEnd (dom : Dom) (clientY : Z) (s : State) : Out :=
  if isAnimating s then Ok (s, [])
  else
    let delta := touchStartY s - clientY in
    if 50 <? Z.abs delta then
      call_goToStep dom (currentStepRef s + (if 0 <? delta then 1 else -1)) s
    else Ok (s, []).

Definition onKeyDown (dom : Dom) (key : Key) (s : State) : Out :=
  if isAnimating s then Ok (s, [])
  else
    match key with
    | KeyArrowDown | KeyPageDown | KeySpace => call_goToStep dom (currentStepRef s + 1) s
    | KeyArrowUp | KeyPageUp => call_goToStep dom (currentStepRef s - 1) s
    | KeyHome => call_goToStep dom 0 s
    | KeyEnd => call_goToStep dom (Z.of_nat (length steps) - 1) s
    | _ => Ok (s, [])
    end.

(** [handleKey] of the gallery; [onComplete] and [onGoBack] are
    [onPortfolioDone] and [onPortfolioBack] of the parent. *)
Definition handleKey (dom : Dom) (key : Key) (s : State) : Out :=
  match portfolioNavRef s with
  | None => Ok (s, [])
  | Some g =>
      if isMoving g then Ok (s, [])
      else
        match key with
        | KeyArrowRight =>
            let r := slideTo (track dom) (currentCard g + 1) g in
            let s := set_gallery (Some r.1.2) s in
            if r.1.1 then Ok (s, r.2)
            else and_then (Ok (s, r.2)) (fun s => call_goToStep dom (currentStepRef s + 1) s)
        | KeyArrowLeft =>
            let r := slideTo (track dom) (currentCard g - 1) g in
            let s := set_gallery (Some r.1.2) s in
            if r.1.1 then Ok (s, r.2)
            else and_then (Ok (s, r.2)) (fun s => call_goToStep dom (currentStepRef s - 1) s)
        | _ => Ok (s, [])
        end
  end.

Definition is_title_of (i : nat) (st : Step) : bool :=
  (sectionIndex st =? i)%nat && bool_decide (subStep st = title).

(** The state at mount. The gallery is rendered inside a portfolio
    section, and its effect fills [navRef] before any handler runs; the
    model has the one gallery [navRef] points at. *)
Definition initial_state : State :=
  {| currentStep := 0; currentStepRef := 0; isAnimating := false;
     wheelAccum := 0; wheelTimer := false;
     visibleDetails := ∅; portfolioVisible := false;
     portfolioNavRef :=
       if existsb (fun sec => truthy_flag (isPortfolio sec)) sections
       then Some gallery_init else None;
     activeTextSections := ∅;
     scrollTweens := 0; touchStartY := 0; heroTimer := true |}.

(** The scroll-sync effect calls [syncProgress] once at mount. *)
Definition mount (dom : Dom) : State * list Effect :=
  (initial_state, [Progress (syncProgress dom)]).

(** Timers and tween callbacks fire only while they are pending. *)
Definition enabledb (ev : Event) (s : State) : bool :=
  match ev with
  | EvScrollTweenUpdate | EvScrollTweenComplete => (0 <? scrollTweens s)%nat
  | EvSlideComplete =>
      match portfolioNavRef s with
      | Some g => (0 <? slideTweens g)%nat
      | None => false
      end
  | EvWheelTimeout => wheelTimer s
  | EvHeroEntrance => heroTimer s
  | _ => true
  end.

Definition enabled (ev : Event) (s : State) : Prop := enabledb ev s = true.

Definition handle (dom : Dom) (ev : Event) (s : State) : Out :=
  match ev with
  | EvWheel deltaY => onWheel dom deltaY s
  | EvTouchStart clientY => Ok (set_touchStartY clientY s, [])
  | EvTouchEnd clientY => onTouchEnd dom clientY s
  | EvKeyDown key => and_then (handleKey dom key s) (onKeyDown dom key)
  | EvNavDot i =>
      let titleStep := findIndex (is_title_of i) steps in
      if 0 <=? titleStep then call_goToStep dom titleStep s else Ok (s, [])
  | EvGalleryDot i =>
      match portfolioNavRef s with
      | None => Ok (s, [])
      | Some g =>
          let r := slideTo (track dom) (Z.of_nat i) g in
          Ok (set_gallery (Some r.1.2) s, r.2)
      end
  | EvScroll | EvScrollTweenUpdate => Ok (s, [Progress (syncProgress dom)])
  | EvScrollTweenComplete =>
      Ok (set_scrollTweens (pred (scrollTweens s)) (set_isAnimating false s),
          [Progress (syncProgress dom)])
  | EvSlideComplete =>
      match portfolioNavRef s with
      | None => Ok (s, [])
      | Some g => Ok (set_gallery (Some (slide_complete g)) s, [])
      end
  | EvWheelTimeout => Ok (set_wheel 0 false s, [])
  | EvHeroEntrance => Ok (animateTextIn dom 0 true (set_heroTimer false s))
  end.

(** States the page can get to from [s0]: by enabled events, each in
    any document. *)
Inductive reachable_from (s0 : State) : State -> Prop :=
| reach_refl : reachable_from s0 s0
| reach_step dom ev s s' effects :
    reachable_from s0 s -> enabled ev s -> handle dom ev s = Ok (s', effects) ->
    reachable_from s0 s'.

(** States the page can be in after mount. *)
Definition reachable (s : State) : Prop := reachable_from initial_state s.

(** States the page can get to from [s0] while no window tween
    completes. *)
Inductive before_completion (s0 : State) : State -> Prop :=
| before_refl : before_completion s0 s0
| before_step dom ev s s' effects :
    before_completion s0 s -> ev <> EvScrollTweenComplete ->
    enabled ev s -> handle dom ev s = Ok (s', effects) ->
    before_completion s0 s'.

(** Running a list of events, each in its own document; an event that
    is not enabled does not occur and is passed over. *)
Fixpoint run (evs : list (Dom * Event)) (s : State) : Out :=
  match evs with
  | [] => Ok (s, [])
  | (dom, ev) :: rest =>
      if enabledb ev s then and_then (handle dom ev s) (run rest) else run rest s
  end.

(** A burst of wheel events in one document. *)
Definition wheel_burst (dom : Dom) (deltas : list Z) : list (Dom * Event) :=
  map (fun deltaY => (dom, EvWheel deltaY)) deltas.

End Controller.

(** The accumulator stays under the threshold all along a burst of wheel
    deltas added to [accum]. *)
Fixpoint stays_below (accum : Z) (deltas : list Z) : Prop :=
  match deltas with
  | [] => True
  | deltaY :: rest => Z.abs (accum + deltaY) < THRESHOLD /\ stays_below (accum + deltaY) rest
  end.

(** The current step is one [goToStep] can have set: the state and the
    ref agree, on an index clamping leaves alone. *)
Definition current_in_range (sections : list SectionData) (s : State) : Prop :=
  currentStep s = currentStepRef s
  /\ clamp_step sections (currentStepRef s) = currentStepRef s.


(** While the page rests on a detail step, the detail card of its
    section is shown. *)
Definition detail_shown (sections : list SectionData) (s : State) : Prop :=
  forall step,
    index (steps sections) (currentStepRef s) = Some step ->
    subStep step = detailStep ->
    sectionIndex step ∈ visibleDetails s.

(** At most one window tween is in flight, and none while the lock is
    free. *)
Definition tween_discipline (s : State) : Prop :=
  (scrollTweens s <= 1)%nat /\ (isAnimating s = false -> scrollTweens s = 0%nat).

(** The tweens of a section's text. *)
Definition is_text_effect (e : Effect) : Prop :=
  match e with
  | TextIn _ _ | TextOut _ _ => True
  | _ => False
  end.

(** The [GoToCall]s among the effects. *)
Definition goTo_calls (effects : list Effect) : list Z :=
  omap (fun e => match e with GoToCall i => Some i | _ => None end) effects.

(** A document where the container holds [n] section elements, one
    viewport tall each, with text. *)
Definition page (n : nat) : Dom :=
  {| scroll_sections := Some (map (fun i => {| offsetTop := 1000 * Z.of_nat i; chars := 9 |}) (seq 0 n));
     track := true;
     scrollY := 0; scrollHeight := 1000 * Z.of_nat n; innerHeight := 1000 |}.

(** A document whose container ref is null. *)
Definition unmounted_page : Dom :=
  {| scroll_sections := None; track := false;
     scrollY := 0; scrollHeight := 0; innerHeight := 1000 |}.

(** The window metrics of one scroll sample, in a document without the
    section container. *)
Definition sample (scrollTop : Q) (documentHeight viewportHeight : Z) : Dom :=
  {| scroll_sections := None; track := false;
     scrollY := scrollTop; scrollHeight := documentHeight; innerHeight := viewportHeight |}.

(** The page resting on the gallery step of the source's sections, the
    gallery idle at [card]. *)
Definition at_gallery (card : Z) : State :=
  set_gallery (Some {| currentCard := card; isMoving := false; slideTweens := 0 |})
    (set_portfolioVisible true (set_current 12 (initial_state alphintra_sections))).

(** Four wheel gestures down from the top of the source's page, each
    window tween completing before the next gesture. *)
Definition browse_to_second_detail : list (Dom * Event) :=
  [ (page 10, EvWheel 100); (page 10, EvScrollTweenComplete);
    (page 10, EvWheel 100); (page 10, EvScrollTweenComplete);
    (page 10, EvWheel 100); (page 10, EvScrollTweenComplete);
    (page 10, EvWheel 100) ].

Definition state_after (sections : list SectionData) (evs : list (Dom * Event)) : State :=
  match run sections evs (initial_state sections) with
  | Ok (s, _) => s
  | TypeError => initial_state sections
  end.

(** ** What the render reads off the state *)

(** [steps[currentStep]?.sectionIndex ?? 0]. *)
Definition currentSectionIndex (sections : list SectionData) (s : State) : nat :=
  match index (steps sections) (currentStep s) with
  | Some step => sectionIndex step
  | None => 0%nat
  end.

(** In the map over the sections, for section [i] with data [sec]:
    [detailActive], [portfolioActive] and [hideTitle]. *)
Definition detailActive (s : State) (i : nat) : bool :=
  bool_decide (i ∈ visibleDetails s).

Definition portfolioActive (sec : SectionData) (s : State) : bool :=
  truthy_flag (isPortfolio sec) && portfolioVisible s.

Definition hideTitle (sec : SectionData) (s : State) (i : nat) : bool :=
  detailActive s i || portfolioActive sec s.

(** A section that gets a second step. *)
Definition has_extra_step (sec : SectionData) : bool :=
  truthy_flag (isPortfolio sec) || truthy_detail (detail sec).

(** The visibility flags agree with the step the page rests on. *)
Definition flags_match_step (sections : list SectionData) (s : State) : Prop :=
  forall step sec,
    index (steps sections) (currentStepRef s) = Some step ->
    sections !! sectionIndex step = Some sec ->
    match subStep step with
    | title =>
        (sectionIndex step ∉ visibleDetails s)
        /\ (truthy_flag (isPortfolio sec) = true -> portfolioVisible s = false)
    | detailStep => sectionIndex step ∈ visibleDetails s
    | portfolio => portfolioVisible s = true
    end.

(** Only sections with a detail step are in [visibleDetails], and
    [portfolioVisible] is set only on a page with a portfolio section. *)
Definition flags_have_steps (sections : list SectionData) (s : State) : Prop :=
  (forall i, i ∈ visibleDetails s ->
     exists sec, sections !! i = Some sec
                 /\ truthy_flag (isPortfolio sec) = false
                 /\ truthy_detail (detail sec) = true)
  /\ (portfolioVisible s = true ->
      exists i sec, sections !! i = Some sec /\ truthy_flag (isPortfolio sec) = true).

(** The sections whose text is in are sections of the page. *)
Definition active_text_in_range (sections : list SectionData) (s : State) : Prop :=
  forall i, i ∈ activeTextSections s -> (i < length sections)%nat.

(** ** Documents with every section element in place *)

Definition mounted (sections : list SectionData) (dom : Dom) : Prop :=
  exists sectionEls,
    scroll_sections dom = Some sectionEls /\ (length sections <= length sectionEls)%nat.

(** States the page can be in when every event finds all section
    elements in the document. *)
Inductive reachable_mounted (sections : list SectionData) : State -> Prop :=
| mounted_init : reachable_mounted sections (initial_state sections)
| mounted_step dom ev s s' effects :
    reachable_mounted sections s -> mounted sections dom ->
    enabled ev s -> handle sections dom ev s = Ok (s', effects) ->
    reachable_mounted sections s'.

(** The lock is held exactly while one window tween is in flight. *)
Definition lock_has_tween (s : State) : Prop :=
  (isAnimating s = true -> scrollTweens s = 1%nat)
  /\ (isAnimating s = false -> scrollTweens s = 0%nat).

(** ** Invariant of the gallery *)

Definition gallery_in_range (g : Gallery) : Prop :=
  0 <= currentCard g < Z.of_nat (length projects)
  /\ (slideTweens g <= 1)%nat
  /\ ((0 < slideTweens g)%nat -> isMoving g = true).

(** ** The seeded generator of the decorations (SectionLines, ParticleBackground) *)

(** [makeRand(seed)] and [seededRandom(seed)] keep one number [s]; a
    call replaces it by [(s * 16807 + 0) % 2147483647] and returns
    [s / 2147483647]. For [|s| < 2147483647] the product stays below
    [2^53], so the update is exact on integers; [%] keeps the sign of
    the dividend, as [Z.rem] does. *)
Definition rand_modulus : Z := 2147483647.

Definition rand_next (s : Z) : Z := Z.rem (s * 16807 + 0) rand_modulus.

(** The state after [n] calls. *)
Fixpoint rand_state (seed : Z) (n : nat) : Z :=
  match n with
  | O => seed
  | S n' => rand_next (rand_state seed n')
  end.

(** The value the [n]-th call returns ([n >= 1]), as a rational. *)
Definition rand_value (seed : Z) (n : nat) : Q :=
  (inject_Z (rand_state seed n) / inject_Z rand_modulus)%Q.

(** * Properties *)

(** ** The step model *)

Lemma push_section_app (acc : list Step) (i : nat) (s : SectionData) :
  push_section acc i s = acc ++ section_run i s.
Proof.
  unfold section_run, push_section.
  destruct (truthy_flag (isPortfolio s)); [|destruct (truthy_detail (detail s))];
    simpl; rewrite <- ?app_assoc; reflexivity.
Qed.

Lemma forEach_push_app (secs : list SectionData) :
  forall i acc, forEach_push i secs acc = acc ++ forEach_push i secs [].
Proof.
  induction secs as [|s rest IH]; intros i acc; simpl.
  - now rewrite app_nil_r.
  - rewrite (IH (S i) (push_section acc i s)), (IH (S i) (push_section [] i s)).
    rewrite push_section_app, app_assoc. reflexivity.
Qed.

Lemma forEach_push_concat (secs : list SectionData) :
  forall i, forEach_push i secs [] = concat (imap (fun j => section_run (i + j)) secs).
Proof.
  induction secs as [|s rest IH]; intros i; simpl; [reflexivity|].
  rewrite forEach_push_app, IH, Nat.add_0_r. f_equal. f_equal.
  apply imap_ext. intros j x _. simpl. f_equal. lia.
Qed.

Lemma section_run_cases (i : nat) (s : SectionData) :
  section_run i s =
    {| sectionIndex := i; subStep := title |} ::
    (if truthy_flag (isPortfolio s) then [{| sectionIndex := i; subStep := portfolio |}]
     else if truthy_detail (detail s) then [{| sectionIndex := i; subStep := detailStep |}]
     else []).
Proof.
  unfold section_run, push_section.
  destruct (truthy_flag (isPortfolio s)); [|destruct (truthy_detail (detail s))]; reflexivity.
Qed.

Lemma section_run_index (i : nat) (s : SectionData) :
  Forall (fun st => sectionIndex st = i) (section_run i s).
Proof.
  rewrite section_run_cases.
  destruct (truthy_flag (isPortfolio s)); [|destruct (truthy_detail (detail s))];
    repeat constructor.
Qed.

Lemma section_run_length (i : nat) (s : SectionData) :
  (1 <= length (section_run i s) <= 2)%nat.
Proof.
  rewrite section_run_cases.
  destruct (truthy_flag (isPortfolio s)); [|destruct (truthy_detail (detail s))];
    simpl; lia.
Qed.

(** Every step built from index [i] on belongs to a section of the list. *)
Lemma forEach_push_bounds (secs : list SectionData) :
  forall i,
    Forall (fun st => (i <= sectionIndex st < i + length secs)%nat) (forEach_push i secs []).
Proof.
  induction secs as [|s rest IH]; intros i; simpl; [constructor|].
  rewrite forEach_push_app. apply Forall_app. split.
  - rewrite push_section_app. simpl.
    eapply Forall_impl; [apply section_run_index|]. simpl. intros st ->. lia.
  - eapply Forall_impl; [apply IH|]. simpl. intros st ?. lia.
Qed.

(** The run of section [k] sits between the steps of the earlier and of
    the later sections. *)
Lemma forEach_push_split (secs : list SectionData) :
  forall i k s, secs !! k = Some s ->
    exists before after,
      forEach_push i secs [] = before ++ section_run (i + k) s ++ after
      /\ Forall (fun st => (sectionIndex st < i + k)%nat) before
      /\ Forall (fun st => (i + k < sectionIndex st)%nat) after.
Proof.
  induction secs as [|s0 rest IH]; intros i k s Hk; [discriminate|].
  simpl. rewrite forEach_push_app, push_section_app. simpl.
  destruct k as [|k]; simpl in Hk.
  - injection Hk as ->. exists [], (forEach_push (S i) rest []).
    rewrite Nat.add_0_r. split; [reflexivity|]. split; [constructor|].
    eapply Forall_impl; [apply forEach_push_bounds|]. simpl. intros st ?. lia.
  - destruct (IH (S i) k s Hk) as (before & after & Heq & Hb & Ha).
    exists (section_run i s0 ++ before), after.
    rewrite Heq, <- app_assoc.
    replace (S i + k)%nat with (i + S k)%nat in * by lia.
    split; [reflexivity|]. split; [|exact Ha].
    apply Forall_app. split; [|exact Hb].
    eapply Forall_impl; [apply section_run_index|]. simpl. intros st ->. lia.
Qed.

Lemma forEach_push_sorted (secs : list SectionData) :
  forall i a b x y,
    (a <= b)%nat ->
    forEach_push i secs [] !! a = Some x -> forEach_push i secs [] !! b = Some y ->
    (sectionIndex x <= sectionIndex y)%nat.
Proof.
  induction secs as [|s rest IH]; intros i a b x y Hab Ha Hb; [discriminate|].
  simpl in Ha, Hb. rewrite forEach_push_app, push_section_app in Ha, Hb.
  simpl in Ha, Hb.
  pose proof (section_run_index i s) as Hrun.
  pose proof (forEach_push_bounds rest (S i)) as Hrest.
  rewrite Forall_lookup in Hrun. rewrite Forall_lookup in Hrest.
  destruct (decide (a < length (section_run i s))%nat) as [Hla|Hla].
  - rewrite lookup_app_l in Ha by exact Hla.
    rewrite (Hrun _ _ Ha).
    destruct (decide (b < length (section_run i s))%nat) as [Hlb|Hlb].
    + rewrite lookup_app_l in Hb by exact Hlb. rewrite (Hrun _ _ Hb). lia.
    + rewrite lookup_app_r in Hb by lia. specialize (Hrest _ _ Hb). simpl in Hrest. lia.
  - rewrite lookup_app_r in Ha by lia. rewrite lookup_app_r in Hb by lia.
    eapply (IH (S i)); [|exact Ha|exact Hb]. lia.
Qed.

(** C4. For every section list, [build_steps] is the concatenation of the
    sections' runs; the run of section [i] is its title step followed by
    exactly one more step when the section is a portfolio or has a truthy
    detail, so it has one or two steps, and it lies in the step list as
    one block, after the steps of the earlier sections and before those
    of the later ones; [sectionIndex] never decreases along the list; and
    the empty section list gives the empty step list. *)
Theorem step_model_generation (secs : list SectionData) :
  build_steps secs = concat (imap section_run secs)
  /\ (forall i s, secs !! i = Some s ->
        section_run i s =
          {| sectionIndex := i; subStep := title |} ::
          (if truthy_flag (isPortfolio s) || truthy_detail (detail s)
           then [{| sectionIndex := i;
                    subStep := if truthy_flag (isPortfolio s) then portfolio else detailStep |}]
           else [])
        /\ (1 <= length (section_run i s) <= 2)%nat
        /\ exists before after,
             build_steps secs = before ++ section_run i s ++ after
             /\ Forall (fun st => (sectionIndex st < i)%nat) before
             /\ Forall (fun st => (i < sectionIndex st)%nat) after)
  /\ (forall i j a b, (i <= j)%nat ->
        build_steps secs !! i = Some a -> build_steps secs !! j = Some b ->
        (sectionIndex a <= sectionIndex b)%nat)
  /\ build_steps [] = [].
Proof.
  split; [|split; [|split]].
  - unfold build_steps. rewrite forEach_push_concat. reflexivity.
  - intros i s Hi. split; [|split].
    + rewrite section_run_cases.
      destruct (truthy_flag (isPortfolio s)); [|destruct (truthy_detail (detail s))];
        reflexivity.
    + apply section_run_length.
    + exact (forEach_push_split secs 0%nat i s Hi).
  - intros i j a b. apply forEach_push_sorted.
  - reflexivity.
Qed.

Lemma step_model_generation_witness :
  section_run 6 {| section_id := "portfolio"; detail := None; isPortfolio := Some true |}
  = [ {| sectionIndex := 6; subStep := title |};
      {| sectionIndex := 6; subStep := portfolio |} ]
  /\ exists before after,
       build_steps alphintra_sections
       = before
         ++ section_run 6 {| section_id := "portfolio"; detail := None;
                             isPortfolio := Some true |}
         ++ after
       /\ Forall (fun st => (sectionIndex st < 6)%nat) before
       /\ Forall (fun st => (6 < sectionIndex st)%nat) after.
Proof.
  destruct (step_model_generation alphintra_sections) as (_ & Hrun & _).
  destruct (Hrun 6%nat {| section_id := "portfolio"; detail := None;
                          isPortfolio := Some true |} eq_refl)
    as (Heq & _ & Hsplit).
  split; [exact Heq|exact Hsplit].
Defined.

(** C9. A section whose detail is the empty string, and which is no
    portfolio, contributes its title step alone; the step list of the
    source's ten sections has 19 entries: 10 title steps, 8 detail steps
    and 1 portfolio step. *)
Theorem empty_detail_no_step :
  (forall i ident flag,
      truthy_flag flag = false ->
      section_run i {| section_id := ident; detail := Some (DetailString ""); isPortfolio := flag |}
      = [{| sectionIndex := i; subStep := title |}])
  /\ (alphintra_sections !! 0%nat ≫= detail) = Some (DetailString "")
  /\ length alphintra_sections = 10%nat
  /\ length (steps alphintra_sections) = 19%nat
  /\ length (filter (fun st => subStep st = title) (steps alphintra_sections)) = 10%nat
  /\ length (filter (fun st => subStep st = detailStep) (steps alphintra_sections)) = 8%nat
  /\ length (filter (fun st => subStep st = portfolio) (steps alphintra_sections)) = 1%nat
  /\ steps alphintra_sections !! 1%nat = Some {| sectionIndex := 1; subStep := title |}.
Proof.
  split.
  - intros i ident flag Hflag. rewrite section_run_cases. simpl. rewrite Hflag. reflexivity.
  - repeat split; vm_compute; reflexivity.
Qed.

Lemma empty_detail_no_step_witness :
  section_run 0 {| section_id := "hello"; detail := Some (DetailString "");
                   isPortfolio := None |}
  = [ {| sectionIndex := 0; subStep := title |} ].
Proof.
  destruct empty_detail_no_step as (Hrun & _).
  apply Hrun. reflexivity.
Defined.

(** ** Arrays, clamping, sequencing *)

Lemma index_Some_range {A} (l : list A) (i : Z) (x : A) :
  index l i = Some x -> 0 <= i < Z.of_nat (length l).
Proof.
  unfold index. destruct (Z.ltb_spec i 0); [discriminate|].
  intros H1. apply lookup_lt_Some in H1. lia.
Qed.

Lemma index_in_range {A} (l : list A) (i : Z) :
  0 <= i < Z.of_nat (length l) -> exists x, index l i = Some x.
Proof.
  intros Hi. unfold index. destruct (Z.ltb_spec i 0); [lia|].
  destruct (lookup_lt_is_Some_2 l (Z.to_nat i)) as [x Hx]; [lia|]. eauto.
Qed.

Lemma and_then_Ok (o : Out) (k : State -> Out) (s' : State) (e : list Effect) :
  and_then o k = Ok (s', e) ->
  exists s1 e1 e2, o = Ok (s1, e1) /\ k s1 = Ok (s', e2) /\ e = e1 ++ e2.
Proof.
  unfold and_then. destruct o as [[s1 e1]|]; [|discriminate].
  destruct (k s1) as [[s2 e2]|] eqn:Hk; [|discriminate].
  intros [= <- <-]. eauto 6.
Qed.

Lemma set_activeTextSections_id (s : State) :
  set_activeTextSections (activeTextSections s) s = s.
Proof. destruct s; reflexivity. Qed.

Lemma set_portfolioVisible_id (s : State) :
  set_portfolioVisible (portfolioVisible s) s = s.
Proof. destruct s; reflexivity. Qed.

Lemma set_visibleDetails_id (s : State) :
  set_visibleDetails (visibleDetails s) s = s.
Proof. destruct s; reflexivity. Qed.

Section ControllerFacts.

Variable sections : list SectionData.

Lemma clamp_step_range (t : Z) :
  steps sections <> [] ->
  0 <= clamp_step sections t < Z.of_nat (length (steps sections)).
Proof.
  intros Hne. unfold clamp_step.
  destruct (steps sections) as [|st l]; [congruence|]. simpl length. lia.
Qed.

Lemma clamp_step_idem (t : Z) :
  clamp_step sections (clamp_step sections t) = clamp_step sections t.
Proof. unfold clamp_step. lia. Qed.

Lemma clamp_step_in_range (t : Z) :
  0 <= t < Z.of_nat (length (steps sections)) -> clamp_step sections t = t.
Proof. unfold clamp_step. lia. Qed.

Lemma clamp_step_empty (t : Z) :
  steps sections = [] -> clamp_step sections t = 0.
Proof. unfold clamp_step. intros ->. simpl. lia. Qed.

Lemma index_clamp_step (t : Z) :
  steps sections <> [] -> exists step, index (steps sections) (clamp_step sections t) = Some step.
Proof. intros Hne. apply index_in_range, clamp_step_range, Hne. Qed.

(** Every step points at a section of the list. *)
Lemma step_section_defined (i : Z) (step : Step) :
  index (steps sections) i = Some step ->
  exists sec, sections !! sectionIndex step = Some sec.
Proof.
  unfold index. destruct (i <? 0); [discriminate|]. intros Hi.
  pose proof (forEach_push_bounds sections 0) as Hb.
  rewrite Forall_lookup in Hb. specialize (Hb _ _ Hi). simpl in Hb.
  apply lookup_lt_is_Some_2. lia.
Qed.

(** The first step is a title step. *)
Lemma first_step_title (step : Step) :
  index (steps sections) 0 = Some step -> subStep step = title.
Proof.
  unfold index, steps, build_steps. simpl.
  destruct sections as [|s rest]; [discriminate|]. simpl.
  rewrite forEach_push_app, push_section_app, section_run_cases. simpl.
  intros [= <-]. reflexivity.
Qed.

(** ** The parts of [goToStep] *)

Lemma animateTextIn_shape dom i isHero s :
  exists a e,
    animateTextIn dom i isHero s = (set_activeTextSections a s, e)
    /\ Forall is_text_effect e.
Proof.
  unfold animateTextIn.
  destruct (getSectionElements dom i) as [els|].
  - destruct (chars els =? 0)%nat.
    + exists (activeTextSections s), []. now rewrite set_activeTextSections_id.
    + eexists _, _. split; [reflexivity|]. repeat constructor.
  - exists (activeTextSections s), []. now rewrite set_activeTextSections_id.
Qed.

Lemma animateTextOut_shape dom i way s :
  exists a e,
    animateTextOut dom i way s = (set_activeTextSections a s, e)
    /\ Forall is_text_effect e.
Proof.
  unfold animateTextOut.
  destruct (getSectionElements dom i) as [els|].
  - destruct (chars els =? 0)%nat.
    + exists (activeTextSections s), []. now rewrite set_activeTextSections_id.
    + eexists _, _. split; [reflexivity|]. repeat constructor.
  - exists (activeTextSections s), []. now rewrite set_activeTextSections_id.
Qed.

Lemma animateSectionChange_shape dom fromStep toStep s t :
  index (steps sections) toStep = Some t ->
  exists a e,
    animateSectionChange sections dom fromStep toStep s = Ok (set_activeTextSections a s, e)
    /\ Forall is_text_effect e.
Proof.
  intros Hto. unfold animateSectionChange. rewrite Hto.
  set (way := if fromStep <? toStep then down else up).
  assert (exists a1 e1,
    match index (steps sections) fromStep with
    | Some f =>
        if decide (sectionIndex f = sectionIndex t) then (s, [])
        else if decide (sectionIndex f ∈ activeTextSections s)
             then animateTextOut dom (sectionIndex f) way s
             else (s, [])
    | None => (s, [])
    end = (set_activeTextSections a1 s, e1) /\ Forall is_text_effect e1)
    as (a1 & e1 & -> & He1).
  { destruct (index (steps sections) fromStep) as [f|].
    - destruct (decide (sectionIndex f = sectionIndex t)).
      + exists (activeTextSections s), []. now rewrite set_activeTextSections_id.
      + destruct (decide (sectionIndex f ∈ activeTextSections s)).
        * apply animateTextOut_shape.
        * exists (activeTextSections s), []. now rewrite set_activeTextSections_id.
    - exists (activeTextSections s), []. now rewrite set_activeTextSections_id. }
  destruct (subStep t); try (eexists _, _; split; [reflexivity|assumption]).
  cbn [fst snd].
  destruct (decide (sectionIndex t ∈ activeTextSections (set_activeTextSections a1 s))).
  - eexists _, _; split; [reflexivity|assumption].
  - destruct (animateTextIn_shape dom (sectionIndex t) (sectionIndex t =? 0)%nat
                (set_activeTextSections a1 s)) as (a2 & e2 & -> & He2).
    cbn [fst snd]. exists a2, (e1 ++ e2). split; [reflexivity|].
    apply Forall_app; auto.
Qed.

Lemma update_visibility_eq step sec s :
  sections !! sectionIndex step = Some sec ->
  update_visibility sections step s =
    Ok (set_portfolioVisible
          match subStep step with
          | title => if truthy_flag (isPortfolio sec) then false else portfolioVisible s
          | detailStep => portfolioVisible s
          | portfolio => true
          end
          (set_visibleDetails
             match subStep step with
             | title => visibleDetails s ∖ {[sectionIndex step]}
             | detailStep => {[sectionIndex step]} ∪ visibleDetails s
             | portfolio => visibleDetails s
             end s), []).
Proof.
  intros Hsec. unfold update_visibility. rewrite Hsec.
  destruct (subStep step).
  - destruct (truthy_flag (isPortfolio sec)); [reflexivity|].
    destruct s; reflexivity.
  - destruct s; reflexivity.
  - destruct s; reflexivity.
Qed.

Lemma scroll_to_section_eq dom step s :
  scroll_to_section dom step s =
    match getSectionElements dom (sectionIndex step) with
    | None => Ok (s, [])
    | Some targetEl =>
        Ok (set_scrollTweens (S (scrollTweens s)) s, [ScrollTo (offsetTop targetEl)])
    end.
Proof.
  unfold scroll_to_section, getSectionElements.
  destruct (scroll_sections dom); reflexivity.
Qed.

(** ** [goToStep]: rejected or committed *)

Lemma goToStep_locked dom t s :
  isAnimating s = true -> goToStep sections dom t s = Ok (s, []).
Proof.
  intros Hlock. unfold goToStep. rewrite Hlock.
  destruct (clamp_step sections t =? currentStepRef s); reflexivity.
Qed.

Lemma goToStep_same dom t s :
  clamp_step sections t = currentStepRef s -> goToStep sections dom t s = Ok (s, []).
Proof. intros Heq. unfold goToStep. rewrite Heq, Z.eqb_refl. reflexivity. Qed.

(** An accepted call: the state it leaves and the effects it fires. *)
Lemma goToStep_commit dom t s step sec :
  isAnimating s = false ->
  clamp_step sections t <> currentStepRef s ->
  index (steps sections) (clamp_step sections t) = Some step ->
  sections !! sectionIndex step = Some sec ->
  exists a e_text,
    Forall is_text_effect e_text /\
    let s4 :=
      set_activeTextSections a
        (set_portfolioVisible
           match subStep step with
           | title => if truthy_flag (isPortfolio sec) then false else portfolioVisible s
           | detailStep => portfolioVisible s
           | portfolio => true
           end
           (set_visibleDetails
              match subStep step with
              | title => visibleDetails s ∖ {[sectionIndex step]}
              | detailStep => {[sectionIndex step]} ∪ visibleDetails s
              | portfolio => visibleDetails s
              end
              (set_isAnimating true (set_current (clamp_step sections t) s)))) in
    goToStep sections dom t s =
      match getSectionElements dom (sectionIndex step) with
      | None => Ok (s4, e_text)
      | Some targetEl =>
          Ok (set_scrollTweens (S (scrollTweens s)) s4,
              e_text ++ [ScrollTo (offsetTop targetEl)])
      end.
Proof.
  intros Hfree Hne Hstep Hsec. unfold goToStep.
  destruct (Z.eqb_spec (clamp_step sections t) (currentStepRef s)); [contradiction|].
  rewrite Hfree, Hstep, (update_visibility_eq _ _ _ Hsec).
  cbn [and_then].
  match goal with
  | |- context [animateSectionChange sections dom ?f ?c ?s0] =>
      destruct (animateSectionChange_shape dom f c s0 step Hstep) as (a & e & -> & He)
  end.
  exists a, e. split; [exact He|]. cbn zeta.
  unfold and_then. rewrite scroll_to_section_eq.
  destruct (getSectionElements dom (sectionIndex step)); cbn; [|rewrite app_nil_r]; reflexivity.
Qed.

Lemma goToStep_Ok_cases dom t s s' e :
  goToStep sections dom t s = Ok (s', e) ->
  (s' = s /\ e = [] /\ (isAnimating s = true \/ clamp_step sections t = currentStepRef s))
  \/ (isAnimating s = false /\ clamp_step sections t <> currentStepRef s
      /\ exists step sec,
           index (steps sections) (clamp_step sections t) = Some step
           /\ sections !! sectionIndex step = Some sec).
Proof.
  intros Hgo.
  destruct (isAnimating s) eqn:Hlock.
  { rewrite goToStep_locked in Hgo by exact Hlock. injection Hgo as <- <-. auto. }
  destruct (Z.eq_dec (clamp_step sections t) (currentStepRef s)) as [Heq|Hne].
  { rewrite goToStep_same in Hgo by exact Heq. injection Hgo as <- <-. auto. }
  right. split; [reflexivity|]. split; [exact Hne|].
  unfold goToStep in Hgo.
  destruct (Z.eqb_spec (clamp_step sections t) (currentStepRef s)); [contradiction|].
  rewrite Hlock in Hgo.
  destruct (index (steps sections) (clamp_step sections t)) as [step|] eqn:Hstep;
    [|discriminate].
  destruct (step_section_defined _ _ Hstep) as [sec Hsec]. eauto.
Qed.

Lemma call_goToStep_Ok dom t s s' e :
  call_goToStep sections dom t s = Ok (s', e) ->
  exists e2, goToStep sections dom t s = Ok (s', e2) /\ e = GoToCall t :: e2.
Proof.
  unfold call_goToStep. intros H. apply and_then_Ok in H.
  destruct H as (s1 & e1 & e2 & [= <- <-] & Hgo & ->). eauto.
Qed.

(** ** Invariants of the event loop *)

(** A property of the state that the setters of the handlers keep and
    [goToStep] keeps is kept by every enabled event, provided the
    completion of the window tween keeps it when that is the event. *)
Lemma handle_preserves (P : State -> Prop) :
  (forall a b s, P s -> P (set_wheel a b s)) ->
  (forall g s, P s -> P (set_gallery g s)) ->
  (forall y s, P s -> P (set_touchStartY y s)) ->
  (forall b s, P s -> P (set_heroTimer b s)) ->
  (forall a s, P s -> P (set_activeTextSections a s)) ->
  (forall dom t s s' e, P s -> goToStep sections dom t s = Ok (s', e) -> P s') ->
  forall dom ev s s' e,
    P s -> enabled ev s ->
    (ev = EvScrollTweenComplete -> (0 < scrollTweens s)%nat ->
     P (set_scrollTweens (pred (scrollTweens s)) (set_isAnimating false s))) ->
    handle sections dom ev s = Ok (s', e) -> P s'.
Proof.
  intros Hwheel Hgal Htouch Hhero Hact Hgo dom ev s s' e HP Hen Hdone Hh.
  assert (Hcall : forall dom t s s' e,
             P s -> call_goToStep sections dom t s = Ok (s', e) -> P s').
  { intros dom0 t0 s0 s0' e0 HP0 Hc. apply call_goToStep_Ok in Hc.
    destruct Hc as (e2 & Hc & _). eauto. }
  assert (Hbubble : forall dom t r s s' e,
             P s ->
             and_then (Ok (s, r)) (fun s => call_goToStep sections dom (currentStepRef s + t) s)
             = Ok (s', e) -> P s').
  { intros dom0 t0 r0 s0 s0' e0 HP0 Hc. apply and_then_Ok in Hc.
    destruct Hc as (s1 & e1 & e2 & [= <- <-] & Hc & _). eauto. }
  destruct ev; cbn [handle] in Hh.
  - (* wheel *)
    unfold onWheel, accumulate in Hh.
    destruct (index (steps sections) (currentStepRef s)) as [step|]; [|discriminate].
    destruct (decide (subStep step = portfolio)).
    + destruct (isAnimating s); [injection Hh as <- <-; exact HP|].
      match type of Hh with
      | context [THRESHOLD <=? ?x] => destruct (THRESHOLD <=? x)
      end; [|injection Hh as <- <-; auto].
      cbn [portfolioNavRef set_wheel] in Hh.
      destruct (portfolioNavRef s) as [g|].
      * match type of Hh with
        | context [0 <? ?x] => destruct (0 <? x)
        end.
        -- destruct (nav_next (track dom) g).1.1.
           ++ injection Hh as <- <-. auto.
           ++ eapply (Hbubble dom 1); [|exact Hh]. auto.
        -- destruct (nav_prev (track dom) g).1.1.
           ++ injection Hh as <- <-. auto.
           ++ eapply (Hbubble dom (-1)); [|exact Hh]. auto.
      * eapply Hcall; [|exact Hh]. auto.
    + destruct (isAnimating s); [injection Hh as <- <-; exact HP|].
      match type of Hh with
      | context [THRESHOLD <=? ?x] => destruct (THRESHOLD <=? x)
      end; [|injection Hh as <- <-; auto].
      eapply Hcall; [|exact Hh]. auto.
  - injection Hh as <- <-. auto.
  - (* touch end *)
    unfold onTouchEnd in Hh.
    destruct (isAnimating s); [injection Hh as <- <-; exact HP|].
    match type of Hh with
    | context [50 <? ?x] => destruct (50 <? x)
    end; [|injection Hh as <- <-; auto].
    eapply Hcall; [|exact Hh]. auto.
  - (* key *)
    apply and_then_Ok in Hh. destruct Hh as (s1 & e1 & e2 & Hk1 & Hk2 & _).
    assert (HP1 : P s1).
    { unfold handleKey in Hk1.
      destruct (portfolioNavRef s) as [g|]; [|injection Hk1 as <- <-; exact HP].
      destruct (isMoving g); [injection Hk1 as <- <-; exact HP|].
      destruct key; try (injection Hk1 as <- <-; exact HP).
      - destruct (slideTo (track dom) (currentCard g + 1) g).1.1.
        + injection Hk1 as <- <-. auto.
        + eapply (Hbubble dom 1); [|exact Hk1]. auto.
      - destruct (slideTo (track dom) (currentCard g - 1) g).1.1.
        + injection Hk1 as <- <-. auto.
        + eapply (Hbubble dom (-1)); [|exact Hk1]. auto. }
    unfold onKeyDown in Hk2.
    destruct (isAnimating s1); [injection Hk2 as <- <-; exact HP1|].
    destruct key; try (injection Hk2 as <- <-; exact HP1);
      (eapply Hcall; [|exact Hk2]; exact HP1).
  - (* navigation dot *)
    match type of Hh with
    | context [0 <=? ?x] => destruct (0 <=? x)
    end; [|injection Hh as <- <-; exact HP].
    eapply Hcall; [|exact Hh]. exact HP.
  - destruct (portfolioNavRef s); injection Hh as <- <-; auto.
  - injection Hh as <- <-. exact HP.
  - injection Hh as <- <-. exact HP.
  - injection Hh as <- <-. apply Hdone; [reflexivity|].
    unfold enabled, enabledb in Hen. apply Nat.ltb_lt in Hen. exact Hen.
  - destruct (portfolioNavRef s); injection Hh as <- <-; auto.
  - injection Hh as <- <-. auto.
  - destruct (animateTextIn_shape dom 0%nat true (set_heroTimer false s))
      as (a & e0 & Heq & _).
    rewrite Heq in Hh. injection Hh as <- <-. auto.
Qed.

Lemma reachable_from_preserves (P : State -> Prop) :
  (forall dom ev s s' e,
      P s -> enabled ev s -> handle sections dom ev s = Ok (s', e) -> P s') ->
  forall s0 s, P s0 -> reachable_from sections s0 s -> P s.
Proof.
  intros Hstep s0 s H0 Hreach.
  induction Hreach as [|dom ev s s' e Hreach IH Hen Hh]; [exact H0|].
  eapply Hstep; eauto.
Qed.

Lemma goToStep_current_in_range dom t s s' e :
  current_in_range sections s -> goToStep sections dom t s = Ok (s', e) ->
  current_in_range sections s'.
Proof.
  intros Hinv Hgo.
  destruct (goToStep_Ok_cases _ _ _ _ _ Hgo)
    as [(-> & _)|(Hfree & Hne & step & sec & Hstep & Hsec)]; [exact Hinv|].
  destruct (goToStep_commit dom t s step sec Hfree Hne Hstep Hsec) as (a & et & _ & Heq).
  cbn zeta in Heq. rewrite Heq in Hgo.
  destruct (getSectionElements dom (sectionIndex step)); injection Hgo as <- <-;
    (split; [reflexivity|apply clamp_step_idem]).
Qed.

Lemma reachable_current_in_range s :
  reachable sections s -> current_in_range sections s.
Proof.
  apply reachable_from_preserves.
  - intros dom ev s0 s0' e HP Hen.
    apply handle_preserves; try (intros; assumption).
    intros dom0 t s1 s1' e1. apply goToStep_current_in_range.
  - split; [reflexivity|]. unfold clamp_step. cbn. lia.
Qed.


(** While the lock is held, the completion of the window tween is the
    one event that can release it, and no event moves the current step. *)
Lemma lock_released_only_by_completion dom ev s s' e :
  isAnimating s = true ->
  ev <> EvScrollTweenComplete ->
  enabled ev s -> handle sections dom ev s = Ok (s', e) ->
  isAnimating s' = true /\ currentStepRef s' = currentStepRef s
  /\ currentStep s' = currentStep s.
Proof.
  intros Hlock Hev Hen.
  apply (handle_preserves
           (fun s1 => isAnimating s1 = true /\ currentStepRef s1 = currentStepRef s
                      /\ currentStep s1 = currentStep s));
    try (intros; assumption); [|auto|contradiction].
  intros dom0 t s2 s2' e2 (Hl & Hc) Hgo.
  rewrite goToStep_locked in Hgo by exact Hl. injection Hgo as <- <-. auto.
Qed.

Lemma before_completion_locked s0 s :
  isAnimating s0 = true -> before_completion sections s0 s ->
  isAnimating s = true /\ currentStepRef s = currentStepRef s0
  /\ currentStep s = currentStep s0.
Proof.
  intros Hlock Hreach.
  induction Hreach as [|dom ev s s' e Hreach IH Hev Hen Hh]; [auto|].
  destruct IH as (Hl & Hc & Hc').
  destruct (lock_released_only_by_completion dom ev s s' e Hl Hev Hen Hh) as (H1 & H2 & H3).
  split; [exact H1|]. split; congruence.
Qed.

Lemma text_effects_no_calls (e : list Effect) :
  Forall is_text_effect e -> goTo_calls e = [] /\ forall y, ScrollTo y ∉ e.
Proof.
  induction 1 as [|x e Hx _ [IH1 IH2]]; [split; [reflexivity|intros y Hy; inversion Hy]|].
  destruct x; try contradiction; (split; [exact IH1|]);
    intros y Hy; apply elem_of_cons in Hy; destruct Hy as [Hy|Hy];
    try discriminate; exact (IH2 y Hy).
Qed.

(** What [goToStep] never touches, and that it calls no handler. *)
Lemma goToStep_frame dom t s s' e :
  goToStep sections dom t s = Ok (s', e) ->
  wheelAccum s' = wheelAccum s /\ wheelTimer s' = wheelTimer s
  /\ portfolioNavRef s' = portfolioNavRef s /\ touchStartY s' = touchStartY s
  /\ heroTimer s' = heroTimer s /\ goTo_calls e = [].
Proof.
  intros Hgo.
  destruct (goToStep_Ok_cases _ _ _ _ _ Hgo)
    as [(-> & -> & _)|(Hfree & Hne & step & sec & Hstep & Hsec)]; [repeat split|].
  destruct (goToStep_commit dom t s step sec Hfree Hne Hstep Hsec) as (a & et & Het & Heq).
  cbn zeta in Heq. rewrite Heq in Hgo.
  destruct (text_effects_no_calls _ Het) as [Hcalls _].
  destruct (getSectionElements dom (sectionIndex step)); injection Hgo as <- <-;
    repeat split; try exact Hcalls.
  unfold goTo_calls in *. rewrite omap_app, Hcalls. reflexivity.
Qed.

Lemma run_reachable_from s0 evs :
  forall s s' e,
    reachable_from sections s0 s -> run sections evs s = Ok (s', e) ->
    reachable_from sections s0 s'.
Proof.
  induction evs as [|[dom ev] rest IH]; intros s s' e Hreach Hrun; simpl in Hrun.
  - injection Hrun as <- <-. exact Hreach.
  - destruct (enabledb ev s) eqn:Hen; [|eauto].
    apply and_then_Ok in Hrun. destruct Hrun as (s1 & e1 & e2 & Hh & Hrest & _).
    eapply IH; [|exact Hrest]. eapply reach_step; eauto.
Qed.

Lemma goToStep_detail_shown dom t s s' e :
  detail_shown sections s -> goToStep sections dom t s = Ok (s', e) ->
  detail_shown sections s'.
Proof.
  intros Hinv Hgo.
  destruct (goToStep_Ok_cases _ _ _ _ _ Hgo)
    as [(-> & _)|(Hfree & Hne & step & sec & Hstep & Hsec)]; [exact Hinv|].
  destruct (goToStep_commit dom t s step sec Hfree Hne Hstep Hsec) as (a & et & _ & Heq).
  cbn zeta in Heq. rewrite Heq in Hgo.
  assert (Hgoal : forall s4,
             currentStepRef s4 = clamp_step sections t ->
             visibleDetails s4 =
               match subStep step with
               | title => visibleDetails s ∖ {[sectionIndex step]}
               | detailStep => {[sectionIndex step]} ∪ visibleDetails s
               | portfolio => visibleDetails s
               end ->
             detail_shown sections s4).
  { intros s4 Hcur Hvis st Hst Hkind. rewrite Hcur, Hstep in Hst.
    assert (st = step) as -> by congruence.
    rewrite Hvis, Hkind. apply elem_of_union_l, elem_of_singleton. reflexivity. }
  destruct (getSectionElements dom (sectionIndex step)); injection Hgo as <- <-;
    apply Hgoal; reflexivity.
Qed.

Lemma reachable_detail_shown s :
  reachable sections s -> detail_shown sections s.
Proof.
  apply reachable_from_preserves.
  - intros dom ev s0 s0' e HP Hen.
    apply handle_preserves; try (intros; assumption).
    intros dom0 t s1 s1' e1. apply goToStep_detail_shown.
  - intros step Hstep Hkind. apply first_step_title in Hstep. congruence.
Qed.

Lemma goToStep_tween_discipline dom t s s' e :
  tween_discipline s -> goToStep sections dom t s = Ok (s', e) -> tween_discipline s'.
Proof.
  intros Hinv Hgo.
  destruct (goToStep_Ok_cases _ _ _ _ _ Hgo)
    as [(-> & _)|(Hfree & Hne & step & sec & Hstep & Hsec)]; [exact Hinv|].
  destruct (goToStep_commit dom t s step sec Hfree Hne Hstep Hsec) as (a & et & _ & Heq).
  cbn zeta in Heq. rewrite Heq in Hgo. destruct Hinv as [_ Hidle].
  specialize (Hidle Hfree).
  destruct (getSectionElements dom (sectionIndex step)); injection Hgo as <- <-;
    (split; [cbn; lia|cbn; discriminate]).
Qed.

Lemma reachable_tween_discipline s :
  reachable sections s -> tween_discipline s.
Proof.
  apply reachable_from_preserves.
  - intros dom ev s0 s0' e HP Hen.
    apply handle_preserves; try (intros; assumption).
    + intros dom0 t s1 s1' e1. apply goToStep_tween_discipline.
    + destruct HP as [Hle _]. intros _ Hpos. split; cbn; [lia|intros _; lia].
  - split; [cbn; lia|reflexivity].
Qed.


End ControllerFacts.

(** ** The transition orchestrator *)

(** C1. From a reachable state with the lock free, a [goToStep] call with
    a target that clamps to another step returns with that step current
    and the lock set, and a second call made right after it, whatever its
    target and whatever the document, changes nothing and fires nothing.
    The same holds for a second call made after any events other than
    the completion of the window tween: the first call's step is still
    current and the call is rejected. The reason is that [goToStep]
    leaves any state with the lock set as it is. *)
Theorem goTo_mutual_exclusion
    (sections : list SectionData) (s : State) (dom : Dom) (t1 : Z) :
  reachable sections s ->
  isAnimating s = false ->
  clamp_step sections t1 <> currentStepRef s ->
  exists s1 e1,
    goToStep sections dom t1 s = Ok (s1, e1)
    /\ currentStepRef s1 = clamp_step sections t1
    /\ currentStep s1 = clamp_step sections t1
    /\ isAnimating s1 = true
    /\ (forall dom2 t2, goToStep sections dom2 t2 s1 = Ok (s1, []))
    /\ (forall s2 dom2 t2,
          before_completion sections s1 s2 ->
          currentStepRef s2 = clamp_step sections t1
          /\ goToStep sections dom2 t2 s2 = Ok (s2, []))
    /\ (forall locked dom2 t2,
          isAnimating locked = true -> goToStep sections dom2 t2 locked = Ok (locked, [])).
Proof.
  intros Hreach Hfree Hne.
  destruct (reachable_current_in_range _ _ Hreach) as [_ Hclamp].
  assert (Hsteps : steps sections <> []).
  { intros Hnil. apply Hne. rewrite <- Hclamp. now rewrite !clamp_step_empty. }
  destruct (index_clamp_step sections t1 Hsteps) as [step Hstep].
  destruct (step_section_defined _ _ _ Hstep) as [sec Hsec].
  destruct (goToStep_commit sections dom t1 s step sec Hfree Hne Hstep Hsec)
    as (a & et & _ & Heq).
  cbn zeta in Heq.
  assert (Hlocked : forall locked dom2 t2,
             isAnimating locked = true -> goToStep sections dom2 t2 locked = Ok (locked, [])).
  { intros locked dom2 t2. apply goToStep_locked. }
  assert (Hlater : forall s1 s2 dom2 t2,
             isAnimating s1 = true -> currentStepRef s1 = clamp_step sections t1 ->
             before_completion sections s1 s2 ->
             currentStepRef s2 = clamp_step sections t1
             /\ goToStep sections dom2 t2 s2 = Ok (s2, [])).
  { intros s1 s2 dom2 t2 Hl Hc Hbefore.
    destruct (before_completion_locked sections s1 s2 Hl Hbefore) as (Hl2 & Hc2 & _).
    split; [congruence|]. apply goToStep_locked. exact Hl2. }
  destruct (getSectionElements dom (sectionIndex step));
    (eexists _, _; split; [exact Heq|]);
    (split; [reflexivity|]); (split; [reflexivity|]); (split; [reflexivity|]);
    (split; [intros dom2 t2; apply goToStep_locked; reflexivity|]);
    (split; [|exact Hlocked]);
    intros s2 dom2 t2; apply Hlater; reflexivity.
Qed.

Lemma goTo_mutual_exclusion_witness :
  exists s1 e1,
    goToStep alphintra_sections (page 10) 1 (initial_state alphintra_sections) = Ok (s1, e1)
    /\ currentStepRef s1 = 1
    /\ isAnimating s1 = true
    /\ goToStep alphintra_sections (page 10) 2 s1 = Ok (s1, []).
Proof.
  destruct (goTo_mutual_exclusion alphintra_sections (initial_state alphintra_sections)
              (page 10) 1) as (s1 & e1 & Hgo & Hcur & _ & Hlock & Hsecond & _).
  - apply reach_refl.
  - reflexivity.
  - vm_compute. discriminate.
  - exists s1, e1. split; [exact Hgo|]. split; [exact Hcur|]. split; [exact Hlock|].
    apply Hsecond.
Defined.

(** C8. A [goToStep] call whose target clamps to the current step returns
    the state it was given and fires no effect, so [currentStep],
    [visibleDetails] and [portfolioVisible] are as before and neither a
    text animation nor a scroll command starts. This holds in every
    state, whether reachable or not and whether the lock is free or not. *)
Theorem goTo_current_step_noop
    (sections : list SectionData) (s : State) (dom : Dom) (t : Z) :
  clamp_step sections t = currentStepRef s ->
  exists s',
    goToStep sections dom t s = Ok (s', [])
    /\ s' = s
    /\ currentStepRef s' = currentStepRef s
    /\ currentStep s' = currentStep s
    /\ visibleDetails s' = visibleDetails s
    /\ portfolioVisible s' = portfolioVisible s.
Proof.
  intros Heq. exists s. rewrite goToStep_same by exact Heq. repeat split.
Qed.

Lemma goTo_current_step_noop_witness :
  goToStep alphintra_sections (page 10) (-5) (initial_state alphintra_sections)
  = Ok (initial_state alphintra_sections, []).
Proof.
  destruct (goTo_current_step_noop alphintra_sections (initial_state alphintra_sections)
              (page 10) (-5)) as (s' & Hgo & -> & _).
  - reflexivity.
  - exact Hgo.
Defined.




(** C10. An accepted [goToStep] call changes the visibility flags for the
    section of the arriving step only: arriving at a title step removes
    that section's index from [visibleDetails] and clears
    [portfolioVisible] only if that section is a portfolio; arriving at a
    detail step adds that section's index; arriving at the portfolio step
    sets [portfolioVisible]. Membership of every other index in
    [visibleDetails] is as before, so leaving the detail step of a
    section for a step of another section leaves the first section's
    index in the set. On the source's page a reachable state has the
    indices 1 and 2 in [visibleDetails] together. *)
Theorem visibility_frame :
  (forall (sections : list SectionData) (s : State) (dom : Dom) (t : Z)
          (s' : State) (e : list Effect),
      reachable sections s ->
      isAnimating s = false ->
      clamp_step sections t <> currentStepRef s ->
      goToStep sections dom t s = Ok (s', e) ->
      exists step sec,
        index (steps sections) (clamp_step sections t) = Some step
        /\ sections !! sectionIndex step = Some sec
        /\ visibleDetails s' =
             match subStep step with
             | title => visibleDetails s ∖ {[sectionIndex step]}
             | detailStep => {[sectionIndex step]} ∪ visibleDetails s
             | portfolio => visibleDetails s
             end
        /\ portfolioVisible s' =
             match subStep step with
             | title => if truthy_flag (isPortfolio sec) then false else portfolioVisible s
             | detailStep => portfolioVisible s
             | portfolio => true
             end
        /\ (forall k, k <> sectionIndex step ->
                      (k ∈ visibleDetails s' <-> k ∈ visibleDetails s))
        /\ (forall from,
               index (steps sections) (currentStepRef s) = Some from ->
               subStep from = detailStep ->
               sectionIndex from <> sectionIndex step ->
               sectionIndex from ∈ visibleDetails s'))
  /\ (exists s,
        reachable alphintra_sections s
        /\ 1%nat ∈ visibleDetails s /\ 2%nat ∈ visibleDetails s).
Proof.
  split.
  - intros sections s dom t s' e Hreach Hfree Hne Hgo.
    destruct (goToStep_Ok_cases _ _ _ _ _ _ Hgo)
      as [(_ & _ & [Hl|Heq])|(_ & _ & step & sec & Hstep & Hsec)];
      [congruence|contradiction|].
    destruct (goToStep_commit sections dom t s step sec Hfree Hne Hstep Hsec)
      as (a & et & _ & Heq).
    cbn zeta in Heq. rewrite Heq in Hgo.
    exists step, sec. split; [exact Hstep|]. split; [exact Hsec|].
    assert (Hvis : visibleDetails s' =
                     match subStep step with
                     | title => visibleDetails s ∖ {[sectionIndex step]}
                     | detailStep => {[sectionIndex step]} ∪ visibleDetails s
                     | portfolio => visibleDetails s
                     end).
    { destruct (getSectionElements dom (sectionIndex step)); injection Hgo as <- <-;
        reflexivity. }
    assert (Hother : forall k, k <> sectionIndex step ->
                               (k ∈ visibleDetails s' <-> k ∈ visibleDetails s)).
    { intros k Hk. rewrite Hvis. destruct (subStep step).
      - rewrite elem_of_difference, elem_of_singleton. tauto.
      - rewrite elem_of_union, elem_of_singleton. tauto.
      - reflexivity. }
    split; [exact Hvis|]. split; [|split; [exact Hother|]].
    + destruct (getSectionElements dom (sectionIndex step)); injection Hgo as <- <-;
        reflexivity.
    + intros from Hfrom Hkind Hdiff. apply Hother; [exact Hdiff|].
      exact (reachable_detail_shown sections s Hreach from Hfrom Hkind).
  - exists (state_after alphintra_sections browse_to_second_detail).
    split.
    + assert (Hrun : exists e,
                 run alphintra_sections browse_to_second_detail
                   (initial_state alphintra_sections)
                 = Ok (state_after alphintra_sections browse_to_second_detail, e)).
      { eexists. vm_compute. reflexivity. }
      destruct Hrun as [e Hrun].
      exact (run_reachable_from alphintra_sections _ _ _ _ _ (reach_refl _ _) Hrun).
    + vm_compute. split; reflexivity.
Qed.

Lemma visibility_frame_witness :
  exists s',
    goToStep alphintra_sections (page 10) 3 (initial_state alphintra_sections)
    = Ok (s', [TextIn 2 false; ScrollTo 2000])
    /\ visibleDetails s' = visibleDetails (initial_state alphintra_sections) ∖ {[2%nat]}.
Proof.
  assert (Hrun : exists s',
             goToStep alphintra_sections (page 10) 3 (initial_state alphintra_sections)
             = Ok (s', [TextIn 2 false; ScrollTo 2000])).
  { eexists. vm_compute. reflexivity. }
  destruct Hrun as [s' Hrun]. exists s'. split; [exact Hrun|].
  destruct (proj1 visibility_frame alphintra_sections (initial_state alphintra_sections)
              (page 10) 3 s' [TextIn 2 false; ScrollTo 2000] (reach_refl _ _) eq_refl)
    as (step & sec & Hstep & _ & Hvis & _).
  - vm_compute. discriminate.
  - exact Hrun.
  - vm_compute in Hstep. injection Hstep as <-. exact Hvis.
Defined.

(** ** The input aggregator *)

Lemma and_then_assoc (o : Out) (k1 k2 : State -> Out) :
  and_then (and_then o k1) k2 = and_then o (fun s => and_then (k1 s) k2).
Proof.
  destruct o as [[s e]|]; [|reflexivity]. cbn.
  destruct (k1 s) as [[s1 e1]|]; [|reflexivity]. cbn.
  destruct (k2 s1) as [[s2 e2]|]; [|reflexivity].
  now rewrite app_assoc.
Qed.

Lemma fold_accumulate (deltas : list Z) :
  forall s,
    let quiet := fold_left (fun s deltaY => accumulate deltaY s) deltas s in
    wheelAccum quiet = wheelAccum s + foldr Z.add 0 deltas
    /\ currentStepRef quiet = currentStepRef s
    /\ currentStep quiet = currentStep s
    /\ isAnimating quiet = isAnimating s
    /\ visibleDetails quiet = visibleDetails s
    /\ portfolioVisible quiet = portfolioVisible s.
Proof.
  induction deltas as [|d rest IH]; intros s; cbn zeta.
  - cbn. repeat split. lia.
  - cbn [fold_left foldr]. destruct (IH (accumulate d s)) as (H1 & H2 & H3 & H4 & H5 & H6).
    cbn zeta in *. rewrite H1, H2, H3, H4, H5, H6. cbn. repeat split. lia.
Qed.

Section InputFacts.

Variable sections : list SectionData.

Lemma run_app (evs1 evs2 : list (Dom * Event)) :
  forall s, run sections (evs1 ++ evs2) s = and_then (run sections evs1 s) (run sections evs2).
Proof.
  induction evs1 as [|[dom ev] rest IH]; intros s; cbn [run app].
  - cbn. destruct (run sections evs2 s) as [[s' e]|]; reflexivity.
  - destruct (enabledb ev s); [|apply IH].
    rewrite and_then_assoc.
    destruct (handle sections dom ev s) as [[s1 e1]|]; [|reflexivity].
    cbn [and_then]. rewrite IH. reflexivity.
Qed.

Lemma goToStep_total dom t s :
  steps sections <> [] -> exists s' e, goToStep sections dom t s = Ok (s', e).
Proof.
  intros Hne.
  destruct (isAnimating s) eqn:Hlock; [rewrite goToStep_locked by exact Hlock; eauto|].
  destruct (Z.eq_dec (clamp_step sections t) (currentStepRef s)) as [Heq|Hdiff];
    [rewrite goToStep_same by exact Heq; eauto|].
  destruct (index_clamp_step sections t Hne) as [step Hstep].
  destruct (step_section_defined _ _ _ Hstep) as [sec Hsec].
  destruct (goToStep_commit sections dom t s step sec Hlock Hdiff Hstep Hsec)
    as (a & et & _ & Heq).
  cbn zeta in Heq. rewrite Heq.
  destruct (getSectionElements dom (sectionIndex step)); eauto.
Qed.

Lemma current_step_steps_nonempty s step :
  index (steps sections) (currentStepRef s) = Some step -> steps sections <> [].
Proof.
  intros Hstep Hnil. apply index_Some_range in Hstep. rewrite Hnil in Hstep.
  simpl in Hstep. lia.
Qed.

(** The wheel handler away from the gallery step, with the lock free. *)
Lemma onWheel_plain dom deltaY s step :
  index (steps sections) (currentStepRef s) = Some step ->
  subStep step <> portfolio ->
  isAnimating s = false ->
  onWheel sections dom deltaY s =
    if THRESHOLD <=? Z.abs (wheelAccum s + deltaY) then
      call_goToStep sections dom
        (currentStepRef s + (if 0 <? wheelAccum s + deltaY then 1 else -1))
        (set_wheel 0 true s)
    else Ok (accumulate deltaY s, []).
Proof.
  intros Hstep Hkind Hfree. unfold onWheel. rewrite Hstep.
  destruct (decide (subStep step = portfolio)); [contradiction|].
  rewrite Hfree. cbn [wheelAccum accumulate set_wheel].
  destruct (THRESHOLD <=? Z.abs (wheelAccum s + deltaY)); reflexivity.
Qed.

Lemma wheel_burst_quiet dom (deltas : list Z) :
  forall s step,
    index (steps sections) (currentStepRef s) = Some step ->
    subStep step <> portfolio ->
    isAnimating s = false ->
    stays_below (wheelAccum s) deltas ->
    run sections (wheel_burst dom deltas) s
    = Ok (fold_left (fun s deltaY => accumulate deltaY s) deltas s, []).
Proof.
  induction deltas as [|d rest IH]; intros s step Hstep Hkind Hfree Hbelow; [reflexivity|].
  destruct Hbelow as [Hd Hrest].
  cbn [wheel_burst map run enabledb handle fold_left].
  rewrite (onWheel_plain dom d s step Hstep Hkind Hfree).
  destruct (Z.leb_spec THRESHOLD (Z.abs (wheelAccum s + d))); [lia|].
  cbn [and_then]. fold (wheel_burst dom rest).
  rewrite (IH (accumulate d s) step); try assumption; reflexivity.
Qed.

End InputFacts.

(** C5. Away from the gallery step and with the lock free, a burst of
    wheel events whose running sum keeps the accumulator under the
    threshold of 50 in absolute value only adds each delta to the
    accumulator: no effect is fired, no [goToStep] call is made, the step
    and the lock are as before. For the next wheel event: if the
    accumulator still stays under the threshold the delta is added and
    nothing else happens; if it reaches the threshold, the handler makes
    exactly one [goToStep] call, to the current step plus one when the
    accumulator is positive and minus one otherwise, and the accumulator
    is zero afterwards. *)
Theorem wheel_threshold
    (sections : list SectionData) (dom : Dom) (s : State) (step : Step)
    (deltas : list Z) (deltaY : Z) :
  index (steps sections) (currentStepRef s) = Some step ->
  subStep step <> portfolio ->
  isAnimating s = false ->
  stays_below (wheelAccum s) deltas ->
  let quiet := fold_left (fun s d => accumulate d s) deltas s in
  let accum := wheelAccum s + foldr Z.add 0 deltas + deltaY in
  run sections (wheel_burst dom deltas) s = Ok (quiet, [])
  /\ wheelAccum quiet = wheelAccum s + foldr Z.add 0 deltas
  /\ currentStepRef quiet = currentStepRef s
  /\ isAnimating quiet = false
  /\ (Z.abs accum < THRESHOLD ->
      onWheel sections dom deltaY quiet = Ok (set_wheel accum true quiet, []))
  /\ (THRESHOLD <= Z.abs accum ->
      let target := if 0 <? accum then currentStepRef s + 1 else currentStepRef s - 1 in
      exists s' e,
        onWheel sections dom deltaY quiet = Ok (s', GoToCall target :: e)
        /\ goToStep sections dom target (set_wheel 0 true quiet) = Ok (s', e)
        /\ run sections (wheel_burst dom (deltas ++ [deltaY])) s
           = Ok (s', GoToCall target :: e)
        /\ goTo_calls (GoToCall target :: e) = [target]
        /\ wheelAccum s' = 0).
Proof.
  intros Hstep Hkind Hfree Hbelow quiet accum.
  destruct (fold_accumulate deltas s) as (Hacc & Hcur & _ & Hlock & _).
  fold quiet in Hacc, Hcur, Hlock. rewrite Hfree in Hlock.
  pose proof (wheel_burst_quiet sections dom deltas s step Hstep Hkind Hfree Hbelow) as Hrun.
  fold quiet in Hrun.
  assert (Hstep' : index (steps sections) (currentStepRef quiet) = Some step)
    by (rewrite Hcur; exact Hstep).
  pose proof (onWheel_plain sections dom deltaY quiet step Hstep' Hkind Hlock) as Hwheel.
  rewrite Hacc in Hwheel. fold accum in Hwheel.
  split; [exact Hrun|]. split; [exact Hacc|]. split; [exact Hcur|]. split; [exact Hlock|].
  split.
  - intros Hsmall. rewrite Hwheel.
    destruct (Z.leb_spec THRESHOLD (Z.abs accum)); [lia|].
    unfold accumulate. rewrite Hacc. reflexivity.
  - intros Hbig target.
    destruct (Z.leb_spec THRESHOLD (Z.abs accum)); [|lia].
    assert (Htarget : currentStepRef quiet + (if 0 <? accum then 1 else -1) = target).
    { unfold target. rewrite Hcur. destruct (0 <? accum); lia. }
    rewrite Htarget in Hwheel.
    destruct (goToStep_total sections dom target (set_wheel 0 true quiet)
                (current_step_steps_nonempty sections s step Hstep)) as (s' & e & Hgo).
    destruct (goToStep_frame sections dom target _ s' e Hgo) as (Hw & _ & _ & _ & _ & Hcalls).
    assert (Hw' : onWheel sections dom deltaY quiet = Ok (s', GoToCall target :: e)).
    { rewrite Hwheel. unfold call_goToStep. cbn [and_then]. rewrite Hgo. reflexivity. }
    exists s', e. split; [exact Hw'|]. split; [exact Hgo|]. split; [|split].
    + unfold wheel_burst. rewrite map_app. fold (wheel_burst dom deltas).
      rewrite run_app, Hrun. cbn [and_then map wheel_burst run enabledb handle].
      rewrite Hw'. cbn. rewrite app_nil_r. reflexivity.
    + change (goTo_calls (GoToCall target :: e)) with (target :: goTo_calls e).
      rewrite Hcalls. reflexivity.
    + exact Hw.
Qed.

Lemma wheel_threshold_witness :
  exists s' e,
    run alphintra_sections (wheel_burst (page 10) [20; 20; 30])
      (initial_state alphintra_sections)
    = Ok (s', GoToCall 1 :: e)
    /\ goTo_calls (GoToCall 1 :: e) = [1]
    /\ wheelAccum s' = 0.
Proof.
  destruct (wheel_threshold alphintra_sections (page 10) (initial_state alphintra_sections)
              {| sectionIndex := 0; subStep := title |} [20; 20] 30)
    as (_ & _ & _ & _ & _ & Hbig).
  - reflexivity.
  - discriminate.
  - reflexivity.
  - cbn. unfold THRESHOLD. lia.
  - destruct Hbig as (s' & e & _ & _ & Hrun & Hcalls & Hzero).
    + cbn. unfold THRESHOLD. lia.
    + exists s', e. split; [exact Hrun|]. split; [exact Hcalls|exact Hzero].
Defined.

(** ** The gallery and the bubbling of intents *)

Lemma slideTo_locked trackRef i g :
  isMoving g = true -> slideTo trackRef i g = (true, g, []).
Proof. intros Hm. unfold slideTo. rewrite Hm. reflexivity. Qed.

(** [slideTo] answers [false] only when called with the lock free, and
    then it has started no tween. *)
Lemma slideTo_false trackRef i g :
  (slideTo trackRef i g).1.1 = false ->
  isMoving g = false /\ (slideTo trackRef i g).2 = [].
Proof.
  unfold slideTo. destruct (isMoving g); [discriminate|].
  destruct ((i <? 0) || (Z.of_nat (length projects) <=? i)); [auto|].
  destruct trackRef; [discriminate|auto].
Qed.

(** With the track in the document, a [false] answer leaves the gallery
    as it was, the lock free. *)
Lemma slideTo_false_with_track i g :
  (slideTo true i g).1.1 = false ->
  (slideTo true i g).1.2 = g /\ isMoving (slideTo true i g).1.2 = false.
Proof.
  unfold slideTo. destruct (isMoving g) eqn:Hm; [discriminate|].
  destruct ((i <? 0) || (Z.of_nat (length projects) <=? i)); [|discriminate].
  auto.
Qed.

Lemma slideTo_out_of_range trackRef i g :
  isMoving g = false -> i < 0 \/ Z.of_nat (length projects) <= i ->
  slideTo trackRef i g = (false, g, []).
Proof.
  intros Hm Hi. unfold slideTo. rewrite Hm.
  destruct (Z.ltb_spec i 0); [reflexivity|].
  destruct (Z.leb_spec (Z.of_nat (length projects)) i); [reflexivity|lia].
Qed.

Section BubblingFacts.

Variable sections : list SectionData.

Lemma goToStep_accepted dom t s s' e :
  isAnimating s = false ->
  clamp_step sections t <> currentStepRef s ->
  goToStep sections dom t s = Ok (s', e) ->
  currentStepRef s' = clamp_step sections t
  /\ currentStep s' = clamp_step sections t
  /\ isAnimating s' = true.
Proof.
  intros Hfree Hne Hgo.
  destruct (goToStep_Ok_cases _ _ _ _ _ _ Hgo)
    as [(_ & _ & [Hl|Heq])|(_ & _ & step & sec & Hstep & Hsec)];
    [congruence|contradiction|].
  destruct (goToStep_commit sections dom t s step sec Hfree Hne Hstep Hsec)
    as (a & et & _ & Heq).
  cbn zeta in Heq. rewrite Heq in Hgo.
  destruct (getSectionElements dom (sectionIndex step)); injection Hgo as <- <-;
    repeat split.
Qed.

(** The wheel handler on the gallery step, with the lock free, the
    gallery mounted and the accumulator reaching the threshold. *)
Lemma onWheel_gallery dom deltaY s step g :
  index (steps sections) (currentStepRef s) = Some step ->
  subStep step = portfolio ->
  isAnimating s = false ->
  portfolioNavRef s = Some g ->
  THRESHOLD <= Z.abs (wheelAccum s + deltaY) ->
  onWheel sections dom deltaY s =
    if 0 <? wheelAccum s + deltaY then
      let r := nav_next (track dom) g in
      let s1 := set_gallery (Some r.1.2) (set_wheel 0 true s) in
      if r.1.1 then Ok (s1, r.2)
      else and_then (Ok (s1, r.2))
             (fun s => call_goToStep sections dom (currentStepRef s + 1) s)
    else
      let r := nav_prev (track dom) g in
      let s1 := set_gallery (Some r.1.2) (set_wheel 0 true s) in
      if r.1.1 then Ok (s1, r.2)
      else and_then (Ok (s1, r.2))
             (fun s => call_goToStep sections dom (currentStepRef s - 1) s).
Proof.
  intros Hstep Hkind Hfree Hnav Hbig. unfold onWheel. rewrite Hstep.
  destruct (decide (subStep step = portfolio)); [|contradiction].
  rewrite Hfree. cbn [wheelAccum wheelTimer accumulate set_wheel portfolioNavRef].
  destruct (Z.leb_spec THRESHOLD (Z.abs (wheelAccum s + deltaY))); [|lia].
  rewrite Hnav.
  destruct (0 <? wheelAccum s + deltaY); reflexivity.
Qed.

(** An intent the gallery did not handle reaches [goToStep]. *)
Lemma bubble_to_goToStep dom t s1 :
  steps sections <> [] ->
  exists s' e,
    and_then (Ok (s1, [])) (fun s => call_goToStep sections dom (currentStepRef s + t) s)
    = Ok (s', GoToCall (currentStepRef s1 + t) :: e)
    /\ goToStep sections dom (currentStepRef s1 + t) s1 = Ok (s', e)
    /\ goTo_calls (GoToCall (currentStepRef s1 + t) :: e) = [currentStepRef s1 + t].
Proof.
  intros Hne.
  destruct (goToStep_total sections dom (currentStepRef s1 + t) s1 Hne) as (s' & e & Hgo).
  destruct (goToStep_frame sections dom _ _ s' e Hgo) as (_ & _ & _ & _ & _ & Hcalls).
  exists s', e. split; [|split; [exact Hgo|]].
  - unfold call_goToStep. cbn [and_then]. rewrite Hgo. reflexivity.
  - change (goTo_calls (GoToCall (currentStepRef s1 + t) :: e))
      with ((currentStepRef s1 + t) :: goTo_calls e).
    rewrite Hcalls. reflexivity.
Qed.

End BubblingFacts.

(** C6. On the gallery step, with the lock free and the gallery mounted,
    a wheel event that brings the accumulator to the threshold is first
    offered to the gallery. When the accumulator is positive and [next]
    answers [false], the handler makes exactly one call,
    [goToStep (currentStepRef + 1)], and whenever the step list has a
    next step that call is accepted: the next step becomes current and
    the lock is set. When the accumulator is negative and [prev] answers
    [false], the handler makes exactly one call,
    [goToStep (currentStepRef - 1)], which is always accepted, the
    gallery step being preceded by its title step. An idle gallery at its
    last card answers [false] to [next], and at its first card to [prev]. *)
Theorem gallery_bubbling
    (sections : list SectionData) (dom : Dom) (s : State) (step : Step)
    (g : Gallery) (deltaY : Z) :
  index (steps sections) (currentStepRef s) = Some step ->
  subStep step = portfolio ->
  isAnimating s = false ->
  portfolioNavRef s = Some g ->
  THRESHOLD <= Z.abs (wheelAccum s + deltaY) ->
  (0 < wheelAccum s + deltaY ->
   (nav_next (track dom) g).1.1 = false ->
   exists s' e,
     onWheel sections dom deltaY s = Ok (s', GoToCall (currentStepRef s + 1) :: e)
     /\ goTo_calls (GoToCall (currentStepRef s + 1) :: e) = [currentStepRef s + 1]
     /\ (currentStepRef s + 1 < Z.of_nat (length (steps sections)) ->
         currentStepRef s' = currentStepRef s + 1
         /\ currentStep s' = currentStepRef s + 1
         /\ isAnimating s' = true))
  /\ (wheelAccum s + deltaY < 0 ->
      (nav_prev (track dom) g).1.1 = false ->
      exists s' e,
        onWheel sections dom deltaY s = Ok (s', GoToCall (currentStepRef s - 1) :: e)
        /\ goTo_calls (GoToCall (currentStepRef s - 1) :: e) = [currentStepRef s - 1]
        /\ currentStepRef s' = currentStepRef s - 1
        /\ currentStep s' = currentStepRef s - 1
        /\ isAnimating s' = true)
  /\ (isMoving g = false -> currentCard g = Z.of_nat (length projects) - 1 ->
      nav_next (track dom) g = (false, g, []))
  /\ (isMoving g = false -> currentCard g = 0 ->
      nav_prev (track dom) g = (false, g, [])).
Proof.
  intros Hstep Hkind Hfree Hnav Hbig.
  pose proof (onWheel_gallery sections dom deltaY s step g Hstep Hkind Hfree Hnav Hbig)
    as Hwheel.
  pose proof (current_step_steps_nonempty sections s step Hstep) as Hne.
  pose proof (index_Some_range _ _ _ Hstep) as Hrange.
  split; [|split; [|split]].
  - intros Hpos Hfalse.
    destruct (Z.ltb_spec 0 (wheelAccum s + deltaY)); [|lia].
    cbn zeta in Hwheel. rewrite Hfalse in Hwheel.
    destruct (slideTo_false _ _ _ Hfalse) as [_ Hnone].
    unfold nav_next in Hwheel at 2. rewrite Hnone in Hwheel.
    set (s1 := set_gallery (Some (nav_next (track dom) g).1.2) (set_wheel 0 true s)) in *.
    destruct (bubble_to_goToStep sections dom 1 s1 Hne) as (s' & e & Hb & Hgo & Hcalls).
    rewrite Hb in Hwheel. change (currentStepRef s1) with (currentStepRef s) in *.
    exists s', e. split; [exact Hwheel|]. split; [exact Hcalls|].
    intros Hnext.
    destruct (goToStep_accepted sections dom (currentStepRef s + 1) s1 s' e)
      as (H1 & H2 & H3); [exact Hfree| |exact Hgo|].
    + rewrite clamp_step_in_range by lia. change (currentStepRef s1) with (currentStepRef s).
      lia.
    + rewrite clamp_step_in_range in H1, H2 by lia. auto.
  - intros Hneg Hfalse.
    destruct (Z.ltb_spec 0 (wheelAccum s + deltaY)); [lia|].
    cbn zeta in Hwheel. rewrite Hfalse in Hwheel.
    destruct (slideTo_false _ _ _ Hfalse) as [_ Hnone].
    unfold nav_prev in Hwheel at 2. rewrite Hnone in Hwheel.
    set (s1 := set_gallery (Some (nav_prev (track dom) g).1.2) (set_wheel 0 true s)) in *.
    destruct (bubble_to_goToStep sections dom (-1) s1 Hne) as (s' & e & Hb & Hgo & Hcalls).
    change (onWheel sections dom deltaY s =
            and_then (Ok (s1, []))
              (fun s => call_goToStep sections dom (currentStepRef s + -1) s)) in Hwheel.
    rewrite Hb in Hwheel.
    change (currentStepRef s1 + -1) with (currentStepRef s - 1) in *.
    assert (Hfirst : currentStepRef s <> 0).
    { intros H0. rewrite H0 in Hstep. apply first_step_title in Hstep. congruence. }
    exists s', e. split; [exact Hwheel|]. split; [exact Hcalls|].
    destruct (goToStep_accepted sections dom (currentStepRef s - 1) s1 s' e)
      as (H1 & H2 & H3); [exact Hfree| |exact Hgo|].
    + rewrite clamp_step_in_range by lia. change (currentStepRef s1) with (currentStepRef s).
      lia.
    + rewrite clamp_step_in_range in H1, H2 by lia. auto.
  - intros Hidle Hlast. apply slideTo_out_of_range; [exact Hidle|]. lia.
  - intros Hidle Hzero. apply slideTo_out_of_range; [exact Hidle|]. lia.
Qed.

Lemma gallery_bubbling_witness :
  exists s' e,
    onWheel alphintra_sections (page 10) 60 (at_gallery 3) = Ok (s', GoToCall 13 :: e)
    /\ currentStepRef s' = 13
    /\ isAnimating s' = true.
Proof.
  destruct (gallery_bubbling alphintra_sections (page 10) (at_gallery 3)
              {| sectionIndex := 6; subStep := portfolio |}
              {| currentCard := 3; isMoving := false; slideTweens := 0 |} 60)
    as (Hadvance & _).
  - reflexivity.
  - reflexivity.
  - reflexivity.
  - reflexivity.
  - cbn. unfold THRESHOLD. lia.
  - destruct Hadvance as (s' & e & Hw & _ & Hcommit).
    + cbn. lia.
    + reflexivity.
    + destruct Hcommit as (Hcur & _ & Hlock).
      * vm_compute. reflexivity.
      * exists s', e. split; [exact Hw|]. split; [exact Hcur|exact Hlock].
Defined.

(** C7. Whenever [next] or [prev] of the gallery answers [false], the
    slide lock is not held. A call made while [isMoving] is set answers
    [true] and changes nothing, whatever the state of the track, so
    [false] is never reported while the lock is set. With the track in
    the document (the track is rendered with the component, and [next]
    and [prev] are handed out by an effect that runs after its ref is
    attached) the only [false] answer is the out-of-range one, which
    returns before [isMoving] is written: the gallery is left as it was,
    with the lock free before and after the call. This holds in every
    gallery state, reachable or not. *)
Theorem gallery_false_lock_free (g : Gallery) :
  (forall trackRef,
      isMoving g = true ->
      nav_next trackRef g = (true, g, []) /\ nav_prev trackRef g = (true, g, []))
  /\ (forall trackRef,
        (nav_next trackRef g).1.1 = false \/ (nav_prev trackRef g).1.1 = false ->
        isMoving g = false)
  /\ ((nav_next true g).1.1 = false ->
      nav_next true g = (false, g, [])
      /\ isMoving g = false
      /\ isMoving (nav_next true g).1.2 = false
      /\ (currentCard g + 1 < 0 \/ Z.of_nat (length projects) <= currentCard g + 1))
  /\ ((nav_prev true g).1.1 = false ->
      nav_prev true g = (false, g, [])
      /\ isMoving g = false
      /\ isMoving (nav_prev true g).1.2 = false
      /\ (currentCard g - 1 < 0 \/ Z.of_nat (length projects) <= currentCard g - 1)).
Proof.
  split; [|split; [|split]].
  - intros trackRef Hm. split; apply slideTo_locked; exact Hm.
  - intros trackRef [H | H]; apply slideTo_false in H; tauto.
  - unfold nav_next, slideTo.
    destruct (isMoving g) eqn:Hm; [discriminate|].
    destruct (Z.ltb_spec (currentCard g + 1) 0) as [Hneg | Hpos];
      destruct (Z.leb_spec (Z.of_nat (length projects)) (currentCard g + 1)) as [Hge | Hlt];
      cbn [orb negb fst snd isMoving]; intros H; try discriminate;
      (split; [reflexivity|split; [reflexivity|split; [exact Hm|tauto]]]).
  - unfold nav_prev, slideTo.
    destruct (isMoving g) eqn:Hm; [discriminate|].
    destruct (Z.ltb_spec (currentCard g - 1) 0) as [Hneg | Hpos];
      destruct (Z.leb_spec (Z.of_nat (length projects)) (currentCard g - 1)) as [Hge | Hlt];
      cbn [orb negb fst snd isMoving]; intros H; try discriminate;
      (split; [reflexivity|split; [reflexivity|split; [exact Hm|tauto]]]).
Qed.

Lemma gallery_false_lock_free_witness :
  let last := {| currentCard := 3; isMoving := false; slideTweens := 0 |} in
  let moving := {| currentCard := 3; isMoving := true; slideTweens := 1 |} in
  nav_next true last = (false, last, [])
  /\ isMoving (nav_next true last).1.2 = false
  /\ nav_next true moving = (true, moving, []).
Proof.
  intros last moving.
  destruct (gallery_false_lock_free last) as (_ & _ & Hnext & _).
  destruct (gallery_false_lock_free moving) as (Hlocked & _).
  destruct (Hnext eq_refl) as (Hres & _ & Hfree & _).
  destruct (Hlocked true eq_refl) as [Hmov _].
  split; [exact Hres|]. split; [exact Hfree|]. exact Hmov.
Defined.

(** ** The progress reporter *)

Lemma clamp01_id (q : Q) : (0 <= q)%Q -> (q <= 1)%Q -> clamp01 q = q.
Proof.
  intros H0 H1. unfold clamp01.
  destruct (Qlt_le_dec q 0) as [Hlt|_]; [exfalso; exact (Qlt_not_le _ _ Hlt H0)|].
  destruct (Qlt_le_dec 1 q) as [Hlt|_]; [exfalso; exact (Qlt_not_le _ _ Hlt H1)|].
  reflexivity.
Qed.

Lemma syncProgress_positive (dom : Dom) :
  0 < scrollHeight dom - innerHeight dom ->
  syncProgress dom = (scrollY dom / inject_Z (scrollHeight dom - innerHeight dom))%Q.
Proof.
  intros Hpos. unfold syncProgress.
  destruct (Z.ltb_spec 0 (scrollHeight dom - innerHeight dom)); [reflexivity|lia].
Qed.

Lemma syncProgress_degenerate (dom : Dom) :
  scrollHeight dom - innerHeight dom <= 0 -> syncProgress dom = 0%Q.
Proof.
  intros Hneg. unfold syncProgress.
  destruct (Z.ltb_spec 0 (scrollHeight dom - innerHeight dom)); [lia|reflexivity].
Qed.

Lemma syncProgress_bounds (dom : Dom) :
  0 < scrollHeight dom - innerHeight dom ->
  (0 <= scrollY dom)%Q ->
  (scrollY dom <= inject_Z (scrollHeight dom - innerHeight dom))%Q ->
  (0 <= syncProgress dom)%Q /\ (syncProgress dom <= 1)%Q.
Proof.
  intros Hpos Hlow Hhigh. rewrite syncProgress_positive by exact Hpos.
  assert (Hq : (0 < inject_Z (scrollHeight dom - innerHeight dom))%Q).
  { change 0%Q with (inject_Z 0). rewrite <- Zlt_Qlt. exact Hpos. }
  split.
  - apply Qle_shift_div_l; [exact Hq|]. rewrite Qmult_0_l. exact Hlow.
  - apply Qle_shift_div_r; [exact Hq|]. rewrite Qmult_1_l. exact Hhigh.
Qed.

(** C3, as the specification states it, fails: [syncProgress] does not
    clamp. With a document 3000 high, a viewport 1000 high and a scroll
    offset of 2500 it publishes 5/4, where the clamped formula gives 1. *)
Lemma progress_not_clamped :
  (syncProgress (sample 2500 3000 1000) == 5 # 4)%Q
  /\ (spec_progress (sample 2500 3000 1000) == 1)%Q
  /\ ~ (syncProgress (sample 2500 3000 1000) == spec_progress (sample 2500 3000 1000))%Q
  /\ ~ (syncProgress (sample 2500 3000 1000) <= 1)%Q.
Proof.
  split; [vm_compute; reflexivity|].
  split; [vm_compute; reflexivity|].
  split.
  - intros Heq. vm_compute in Heq. discriminate Heq.
  - intros Hle. vm_compute in Hle. apply Hle. reflexivity.
Qed.

(** C3, amended. On every native scroll event and once at mount the
    published progress is [scrollY / (scrollHeight - innerHeight)] when
    that denominator is positive and 0 otherwise, with no clamping. It
    is 1/2 for a document 3000 high, a viewport 1000 high and a scroll
    offset of 1000. It lies between 0 and 1, and agrees with the clamped
    formula, whenever the scroll offset lies between 0 and the
    denominator, and also whenever the denominator is not positive. *)
Theorem progress_formula (sections : list SectionData) (dom : Dom) (s : State) :
  let denominator := scrollHeight dom - innerHeight dom in
  handle sections dom EvScroll s = Ok (s, [Progress (syncProgress dom)])
  /\ mount sections dom = (initial_state sections, [Progress (syncProgress dom)])
  /\ (denominator <= 0 ->
      syncProgress dom = 0%Q /\ spec_progress dom = 0%Q)
  /\ (0 < denominator ->
      syncProgress dom = (scrollY dom / inject_Z denominator)%Q)
  /\ (0 < denominator ->
      (0 <= scrollY dom)%Q -> (scrollY dom <= inject_Z denominator)%Q ->
      (0 <= syncProgress dom)%Q /\ (syncProgress dom <= 1)%Q
      /\ syncProgress dom = spec_progress dom)
  /\ (syncProgress (sample 1000 3000 1000) == 1 # 2)%Q.
Proof.
  intros denominator. split; [reflexivity|]. split; [reflexivity|].
  split; [|split; [|split]].
  - intros Hneg. split; [apply syncProgress_degenerate; exact Hneg|].
    unfold spec_progress. fold denominator.
    destruct (Z.leb_spec denominator 0); [reflexivity|lia].
  - apply syncProgress_positive.
  - intros Hpos Hlow Hhigh.
    destruct (syncProgress_bounds dom Hpos Hlow Hhigh) as [H0 H1].
    split; [exact H0|]. split; [exact H1|].
    unfold spec_progress. fold denominator.
    destruct (Z.leb_spec denominator 0); [lia|].
    rewrite syncProgress_positive in * by exact Hpos. fold denominator in H0, H1 |- *.
    symmetry. apply clamp01_id; assumption.
  - vm_compute. reflexivity.
Qed.

Lemma progress_formula_witness :
  (0 <= syncProgress (sample 1000 3000 1000))%Q
  /\ (syncProgress (sample 1000 3000 1000) <= 1)%Q
  /\ syncProgress (sample 1000 3000 1000) = spec_progress (sample 1000 3000 1000).
Proof.
  destruct (progress_formula [] (sample 1000 3000 1000) (initial_state []))
    as (_ & _ & _ & _ & Hbounds & _).
  apply Hbounds.
  - cbn. lia.
  - vm_compute. discriminate.
  - vm_compute. discriminate.
Defined.

(** ** No handler throws on a page with steps *)

Section Totality.

Variable sections : list SectionData.
Hypothesis steps_nonempty : steps sections <> [].

Lemma call_goToStep_total dom t s :
  exists s' e, call_goToStep sections dom t s = Ok (s', e).
Proof.
  destruct (goToStep_total sections dom t s steps_nonempty) as (s' & e & Hgo).
  unfold call_goToStep. cbn [and_then]. rewrite Hgo. eauto.
Qed.

Lemma bubble_total dom (k : State -> Z) s r :
  exists s' e,
    and_then (Ok (s, r)) (fun s => call_goToStep sections dom (k s) s) = Ok (s', e).
Proof.
  destruct (call_goToStep_total dom (k s) s) as (s' & e & Hc).
  cbn [and_then]. rewrite Hc. eauto.
Qed.

Lemma current_step_defined s :
  current_in_range sections s ->
  exists step, index (steps sections) (currentStepRef s) = Some step.
Proof.
  intros [_ Hclamp]. rewrite <- Hclamp. apply index_clamp_step, steps_nonempty.
Qed.

Lemma onWheel_total dom deltaY s :
  current_in_range sections s ->
  exists s' e, onWheel sections dom deltaY s = Ok (s', e).
Proof.
  intros Hinv. destruct (current_step_defined s Hinv) as [step Hstep].
  unfold onWheel. rewrite Hstep.
  destruct (decide (subStep step = portfolio)).
  - destruct (isAnimating s); [eauto|].
    destruct (THRESHOLD <=? Z.abs (wheelAccum (accumulate deltaY s))); [|eauto].
    cbn [portfolioNavRef set_wheel accumulate].
    destruct (portfolioNavRef s) as [g|]; [|apply call_goToStep_total].
    match goal with |- context [0 <? ?x] => destruct (0 <? x) end.
    + destruct (nav_next (track dom) g).1.1; [eauto|].
      apply (bubble_total dom (fun s => currentStepRef s + 1)).
    + destruct (nav_prev (track dom) g).1.1; [eauto|].
      apply (bubble_total dom (fun s => currentStepRef s - 1)).
  - destruct (isAnimating s); [eauto|].
    destruct (THRESHOLD <=? Z.abs (wheelAccum (accumulate deltaY s))); [|eauto].
    apply call_goToStep_total.
Qed.

Lemma onKeyDown_total dom key s :
  exists s' e, onKeyDown sections dom key s = Ok (s', e).
Proof.
  unfold onKeyDown. destruct (isAnimating s); [eauto|].
  destruct key; eauto using call_goToStep_total.
Qed.

Lemma handleKey_total dom key s :
  exists s' e, handleKey sections dom key s = Ok (s', e).
Proof.
  unfold handleKey. destruct (portfolioNavRef s) as [g|]; [|eauto].
  destruct (isMoving g); [eauto|].
  destruct key; eauto.
  - destruct (slideTo (track dom) (currentCard g + 1) g).1.1; [eauto|].
    apply (bubble_total dom (fun s => currentStepRef s + 1)).
  - destruct (slideTo (track dom) (currentCard g - 1) g).1.1; [eauto|].
    apply (bubble_total dom (fun s => currentStepRef s - 1)).
Qed.

(** In a reachable state every event is handled without a [TypeError]. *)
Lemma handle_total dom ev s :
  reachable sections s -> exists s' e, handle sections dom ev s = Ok (s', e).
Proof.
  intros Hreach. pose proof (reachable_current_in_range _ _ Hreach) as Hinv.
  destruct ev; cbn [handle]; eauto.
  - apply onWheel_total, Hinv.
  - unfold onTouchEnd. destruct (isAnimating s); [eauto|].
    destruct (50 <? Z.abs (touchStartY s - clientY)); [apply call_goToStep_total|eauto].
  - destruct (handleKey_total dom key s) as (s1 & e1 & Hk1).
    destruct (onKeyDown_total dom key s1) as (s2 & e2 & Hk2).
    rewrite Hk1. cbn [and_then]. rewrite Hk2. eauto.
  - destruct (0 <=? findIndex (is_title_of section) (steps sections));
      [apply call_goToStep_total|eauto].
  - destruct (portfolioNavRef s); eauto.
  - destruct (portfolioNavRef s); eauto.
  - destruct (animateTextIn dom 0 true (set_heroTimer false s)) as [s1 e1]. eauto.
Qed.

End Totality.

(** * Further properties *)

(** ** The page after some browsing, for use in examples *)

Lemma browse_reachable :
  reachable alphintra_sections (state_after alphintra_sections browse_to_second_detail).
Proof.
  assert (Hrun : exists e,
             run alphintra_sections browse_to_second_detail
               (initial_state alphintra_sections)
             = Ok (state_after alphintra_sections browse_to_second_detail, e)).
  { eexists. vm_compute. reflexivity. }
  destruct Hrun as [e Hrun].
  exact (run_reachable_from alphintra_sections _ _ _ _ _ (reach_refl _ _) Hrun).
Qed.

Lemma alphintra_steps_nonempty : steps alphintra_sections <> [].
Proof. vm_compute. discriminate. Qed.

Lemma build_steps_nil_iff (secs : list SectionData) :
  build_steps secs = [] <-> secs = [].
Proof.
  split; [|intros ->; reflexivity].
  destruct secs as [|s rest]; [reflexivity|].
  unfold build_steps. simpl. rewrite forEach_push_app, push_section_app, section_run_cases.
  simpl. discriminate.
Qed.

(** ** Invariants of the page *)

(** X1. In every reachable state of a page with at least one step, the
    current step index is an index of the step list, the state and the
    ref hold the same index, and the section index shown by the counter
    and the navigation dots is the section of that step, a section of
    the page. *)
Theorem current_step_always_valid (sections : list SectionData) (s : State) :
  reachable sections s ->
  steps sections <> [] ->
  0 <= currentStepRef s < Z.of_nat (length (steps sections))
  /\ currentStep s = currentStepRef s
  /\ exists step,
       index (steps sections) (currentStepRef s) = Some step
       /\ currentSectionIndex sections s = sectionIndex step
       /\ (currentSectionIndex sections s < length sections)%nat.
Proof.
  intros Hreach Hne.
  destruct (reachable_current_in_range _ _ Hreach) as [Hsame Hclamp].
  pose proof (clamp_step_range sections (currentStepRef s) Hne) as Hrange.
  rewrite Hclamp in Hrange.
  split; [exact Hrange|]. split; [exact Hsame|].
  destruct (index_in_range _ _ Hrange) as [step Hstep].
  exists step. split; [exact Hstep|].
  assert (Hsec : currentSectionIndex sections s = sectionIndex step).
  { unfold currentSectionIndex. rewrite Hsame, Hstep. reflexivity. }
  split; [exact Hsec|]. rewrite Hsec.
  destruct (step_section_defined _ _ _ Hstep) as [sec Hsec'].
  apply lookup_lt_Some in Hsec'. exact Hsec'.
Qed.

Lemma current_step_always_valid_witness :
  0 <= currentStepRef (state_after alphintra_sections browse_to_second_detail) < 19
  /\ currentSectionIndex alphintra_sections
       (state_after alphintra_sections browse_to_second_detail) = 2%nat.
Proof.
  destruct (current_step_always_valid alphintra_sections _ browse_reachable
              alphintra_steps_nonempty) as (Hrange & _ & _).
  split; [exact Hrange|]. vm_compute. reflexivity.
Defined.

(** X2. In every reachable state at most one window scroll tween is in
    flight, and none is while the lock is free. *)
Theorem one_scroll_tween_at_a_time (sections : list SectionData) (s : State) :
  reachable sections s ->
  (scrollTweens s <= 1)%nat
  /\ (isAnimating s = false -> scrollTweens s = 0%nat)
  /\ (scrollTweens s = 1%nat -> isAnimating s = true).
Proof.
  intros Hreach. destruct (reachable_tween_discipline _ _ Hreach) as [Hle Hidle].
  split; [exact Hle|]. split; [exact Hidle|].
  intros Hone. destruct (isAnimating s); [reflexivity|].
  specialize (Hidle eq_refl). lia.
Qed.

Lemma one_scroll_tween_at_a_time_witness :
  scrollTweens (state_after alphintra_sections browse_to_second_detail) = 1%nat
  /\ isAnimating (state_after alphintra_sections browse_to_second_detail) = true.
Proof.
  destruct (one_scroll_tween_at_a_time alphintra_sections _ browse_reachable)
    as (_ & _ & Hlock).
  assert (Hone : scrollTweens (state_after alphintra_sections browse_to_second_detail)
                 = 1%nat) by (vm_compute; reflexivity).
  split; [exact Hone|exact (Hlock Hone)].
Defined.

(** X3. While the lock is held, no event moves the current step, and the
    one event after which the lock is free is the completion of the
    window tween. *)
Theorem lock_released_by_completion_only
    (sections : list SectionData) (dom : Dom) (ev : Event) (s s' : State)
    (e : list Effect) :
  isAnimating s = true ->
  enabled ev s ->
  handle sections dom ev s = Ok (s', e) ->
  currentStepRef s' = currentStepRef s
  /\ currentStep s' = currentStep s
  /\ (isAnimating s' = false -> ev = EvScrollTweenComplete).
Proof.
  intros Hlock Hen Hh.
  assert (Hcases : ev = EvScrollTweenComplete \/ ev <> EvScrollTweenComplete)
    by (destruct ev; auto; right; discriminate).
  destruct Hcases as [->|Hev].
  - cbn in Hh. injection Hh as <- <-. repeat split.
  - destruct (lock_released_only_by_completion sections dom ev s s' e Hlock Hev Hen Hh)
      as (Hl & Hc & Hc').
    split; [exact Hc|]. split; [exact Hc'|]. intros Hfree. congruence.
Qed.

Lemma lock_released_by_completion_only_witness :
  exists s' e,
    handle alphintra_sections (page 10) (EvWheel 500)
      (state_after alphintra_sections browse_to_second_detail) = Ok (s', e)
    /\ currentStepRef s' = 4.
Proof.
  destruct (handle_total alphintra_sections alphintra_steps_nonempty (page 10) (EvWheel 500)
              _ browse_reachable) as (s' & e & Hh).
  exists s', e. split; [exact Hh|].
  assert (Hlock : isAnimating (state_after alphintra_sections browse_to_second_detail)
                  = true) by (vm_compute; reflexivity).
  destruct (lock_released_by_completion_only alphintra_sections (page 10) (EvWheel 500)
              _ s' e Hlock eq_refl Hh) as (Hcur & _).
  rewrite Hcur. vm_compute. reflexivity.
Defined.

(** X4. On a page with at least one step no event handler throws in a
    reachable state: every event is handled, and the state it leaves is
    reachable again when the event was enabled. *)
Theorem no_handler_throws
    (sections : list SectionData) (dom : Dom) (ev : Event) (s : State) :
  reachable sections s ->
  steps sections <> [] ->
  exists s' e,
    handle sections dom ev s = Ok (s', e)
    /\ (enabled ev s -> reachable sections s').
Proof.
  intros Hreach Hne.
  destruct (handle_total sections Hne dom ev s Hreach) as (s' & e & Hh).
  exists s', e. split; [exact Hh|].
  intros Hen. exact (reach_step sections _ dom ev s s' e Hreach Hen Hh).
Qed.

Lemma no_handler_throws_witness :
  exists s' e,
    handle alphintra_sections unmounted_page (EvKeyDown KeyEnd)
      (initial_state alphintra_sections) = Ok (s', e)
    /\ reachable alphintra_sections s'.
Proof.
  destruct (no_handler_throws alphintra_sections unmounted_page (EvKeyDown KeyEnd)
              (initial_state alphintra_sections) (reach_refl _ _) alphintra_steps_nonempty)
    as (s' & e & Hh & Hreach).
  exists s', e. split; [exact Hh|]. apply Hreach. reflexivity.
Defined.

(** X5. A page without sections has no steps. In each of its reachable
    states the current step index is 0 and [goToStep] is a no-op for
    every target, but the wheel handler throws: it reads [subStep] of
    the missing current step. *)
Theorem empty_page_wheel_throws (sections : list SectionData) (s : State) :
  sections = [] ->
  reachable sections s ->
  steps sections = []
  /\ currentStepRef s = 0
  /\ (forall dom t, goToStep sections dom t s = Ok (s, []))
  /\ (forall dom deltaY, onWheel sections dom deltaY s = TypeError).
Proof.
  intros -> Hreach.
  destruct (reachable_current_in_range _ _ Hreach) as [_ Hclamp].
  assert (Hzero : currentStepRef s = 0).
  { rewrite <- Hclamp. apply clamp_step_empty. reflexivity. }
  split; [reflexivity|]. split; [exact Hzero|]. split.
  - intros dom t. apply goToStep_same. rewrite Hzero. apply clamp_step_empty. reflexivity.
  - intros dom deltaY. unfold onWheel. rewrite Hzero. reflexivity.
Qed.

Lemma empty_page_wheel_throws_witness :
  onWheel [] (page 0) 100 (initial_state []) = TypeError
  /\ goToStep [] (page 0) 7 (initial_state []) = Ok (initial_state [], []).
Proof.
  destruct (empty_page_wheel_throws [] (initial_state []) eq_refl (reach_refl _ _))
    as (_ & _ & Hgo & Hwheel).
  split; [apply Hwheel|apply Hgo].
Defined.

(** ** More on the step model *)

Lemma forEach_push_app_sections (secs1 secs2 : list SectionData) :
  forall i,
    forEach_push i (secs1 ++ secs2) []
    = forEach_push i secs1 [] ++ forEach_push (i + length secs1) secs2 [].
Proof.
  induction secs1 as [|s rest IH]; intros i; simpl.
  - rewrite Nat.add_0_r. reflexivity.
  - rewrite forEach_push_app, (forEach_push_app rest (S i) (push_section [] i s)).
    rewrite IH, <- app_assoc.
    replace (i + S (length rest))%nat with (S i + length rest)%nat by lia. reflexivity.
Qed.

Lemma section_run_extra (i : nat) (sec : SectionData) :
  length (section_run i sec) = if has_extra_step sec then 2%nat else 1%nat.
Proof.
  rewrite section_run_cases. unfold has_extra_step.
  destruct (truthy_flag (isPortfolio sec)); [reflexivity|].
  destruct (truthy_detail (detail sec)); reflexivity.
Qed.

Lemma forEach_push_length (secs : list SectionData) :
  forall i,
    length (forEach_push i secs [])
    = (length secs + length (filter (fun sec => has_extra_step sec = true) secs))%nat.
Proof.
  induction secs as [|s rest IH]; intros i; [reflexivity|].
  simpl forEach_push. rewrite forEach_push_app, push_section_app, length_app.
  simpl app. rewrite IH, section_run_extra, filter_cons.
  destruct (has_extra_step s) eqn:Hs.
  - rewrite decide_True by reflexivity. simpl. lia.
  - rewrite decide_False by discriminate. simpl. lia.
Qed.

(** The step list splits at any section: the steps of the sections
    before it, its own run, the steps of the sections after it. *)
Lemma build_steps_at (secs : list SectionData) (i : nat) (sec : SectionData) :
  secs !! i = Some sec ->
  build_steps secs
  = build_steps (take i secs) ++ section_run i sec
    ++ forEach_push (S i) (drop (S i) secs) []
  /\ Forall (fun st => (sectionIndex st < i)%nat) (build_steps (take i secs)).
Proof.
  intros Hi. pose proof (lookup_lt_Some _ _ _ Hi) as Hlt.
  split.
  - unfold build_steps.
    rewrite <- (take_drop_middle secs i sec Hi) at 1.
    rewrite forEach_push_app_sections. simpl forEach_push at 2.
    rewrite length_take, Nat.min_l by lia. simpl.
    rewrite (forEach_push_app _ _ (push_section [] i sec)). reflexivity.
  - eapply Forall_impl; [apply (forEach_push_bounds (take i secs) 0)|].
    simpl. intros st Hst. rewrite length_take in Hst. lia.
Qed.

Lemma findIndex_from_app {A} (p : A -> bool) (l1 l2 : list A) (x : A) :
  forall k,
    Forall (fun y => p y = false) l1 -> p x = true ->
    findIndex_from p (l1 ++ x :: l2) k = k + Z.of_nat (length l1).
Proof.
  induction l1 as [|y l1 IH]; intros k Hall Hx; simpl.
  - rewrite Hx. lia.
  - inversion Hall as [|? ? Hy Hrest]; subst. rewrite Hy, IH by assumption. lia.
Qed.

Lemma findIndex_from_none {A} (p : A -> bool) (l : list A) :
  forall k, Forall (fun y => p y = false) l -> findIndex_from p l k = -1.
Proof.
  induction l as [|y l IH]; intros k Hall; simpl; [reflexivity|].
  inversion Hall as [|? ? Hy Hrest]; subst. rewrite Hy. apply IH, Hrest.
Qed.

(** X6. The step list has one step per section plus one for every
    section that is a portfolio or has a truthy detail; so it has at
    least as many steps as there are sections and at most twice as many,
    and it is empty only for the empty section list. *)
Theorem step_count (secs : list SectionData) :
  length (build_steps secs)
  = (length secs + length (filter (fun sec => has_extra_step sec = true) secs))%nat
  /\ (length secs <= length (build_steps secs) <= 2 * length secs)%nat
  /\ (build_steps secs = [] <-> secs = []).
Proof.
  pose proof (forEach_push_length secs 0) as Hlen. fold (build_steps secs) in Hlen.
  split; [exact Hlen|]. split; [|apply build_steps_nil_iff].
  pose proof (length_filter (fun sec => has_extra_step sec = true) secs). lia.
Qed.

(** X7. The navigation dot of section [i] looks up the title step of
    that section: it is found, at the index equal to the number of steps
    of the sections before [i]. Clicked in a state with the lock free and
    another step current, the dot makes one [goToStep] call that is
    accepted: the title step of section [i] becomes current, the lock is
    set and the detail card of section [i] is hidden. For an index that
    is no section of the page nothing is found and the click does
    nothing. *)
Theorem nav_dot_goes_to_title_step
    (sections : list SectionData) (i : nat) (sec : SectionData) :
  sections !! i = Some sec ->
  let titleStep := findIndex (is_title_of i) (steps sections) in
  titleStep = Z.of_nat (length (build_steps (take i sections)))
  /\ index (steps sections) titleStep = Some {| sectionIndex := i; subStep := title |}
  /\ (forall dom s,
        isAnimating s = false -> currentStepRef s <> titleStep ->
        exists s' e,
          handle sections dom (EvNavDot i) s = Ok (s', GoToCall titleStep :: e)
          /\ goTo_calls (GoToCall titleStep :: e) = [titleStep]
          /\ currentStepRef s' = titleStep
          /\ currentSectionIndex sections s' = i
          /\ isAnimating s' = true
          /\ i ∉ visibleDetails s')
  /\ (forall dom s j,
        (length sections <= j)%nat -> handle sections dom (EvNavDot j) s = Ok (s, [])).
Proof.
  intros Hi titleStep.
  destruct (build_steps_at sections i sec Hi) as [Hsplit Hbefore].
  assert (Htitle : titleStep = Z.of_nat (length (build_steps (take i sections)))).
  { unfold titleStep, findIndex, steps. rewrite Hsplit, section_run_cases.
    rewrite <- app_comm_cons, findIndex_from_app; [lia| |].
    - eapply Forall_impl; [exact Hbefore|]. simpl. intros st Hst.
      unfold is_title_of. destruct (Nat.eqb_spec (sectionIndex st) i); [lia|reflexivity].
    - unfold is_title_of. simpl. rewrite Nat.eqb_refl. reflexivity. }
  assert (Hindex : index (steps sections) titleStep
                   = Some {| sectionIndex := i; subStep := title |}).
  { rewrite Htitle. unfold index, steps.
    destruct (Z.ltb_spec (Z.of_nat (length (build_steps (take i sections)))) 0); [lia|].
    rewrite Nat2Z.id, Hsplit, section_run_cases, <- app_comm_cons.
    rewrite lookup_app_r by lia. rewrite Nat.sub_diag. reflexivity. }
  split; [exact Htitle|]. split; [exact Hindex|]. split.
  - intros dom s Hfree Hne.
    pose proof (index_Some_range _ _ _ Hindex) as Hrange.
    assert (Hclamp : clamp_step sections titleStep = titleStep)
      by (apply clamp_step_in_range; exact Hrange).
    assert (Hsteps : steps sections <> []).
    { intros Hnil. rewrite Hnil in Hrange. simpl in Hrange. lia. }
    destruct (goToStep_total sections dom titleStep s Hsteps) as (s' & e & Hgo).
    destruct (goToStep_frame sections dom _ _ s' e Hgo) as (_ & _ & _ & _ & _ & Hcalls).
    destruct (goToStep_accepted sections dom titleStep s s' e Hfree) as (H1 & H2 & H3);
      [rewrite Hclamp; auto|exact Hgo|].
    rewrite Hclamp in H1, H2.
    exists s', e. split; [|split; [|split; [exact H1|split; [|split; [exact H3|]]]]].
    + cbn [handle]. fold titleStep.
      destruct (Z.leb_spec 0 titleStep); [|lia].
      unfold call_goToStep. cbn [and_then]. rewrite Hgo. reflexivity.
    + change (goTo_calls (GoToCall titleStep :: e)) with (titleStep :: goTo_calls e).
      rewrite Hcalls. reflexivity.
    + unfold currentSectionIndex. rewrite H2, Hindex. reflexivity.
    + assert (Hne' : clamp_step sections titleStep <> currentStepRef s)
        by (rewrite Hclamp; auto).
      destruct (goToStep_commit sections dom titleStep s _ sec Hfree Hne'
                  ltac:(rewrite Hclamp; exact Hindex) Hi) as (a & et & _ & Heq).
      cbn zeta in Heq. rewrite Heq in Hgo. cbn [subStep sectionIndex] in Hgo.
      destruct (getSectionElements dom i); injection Hgo as <- _; cbn;
        rewrite elem_of_difference, elem_of_singleton; tauto.
  - intros dom s j Hj. cbn [handle].
    assert (Hnone : findIndex (is_title_of j) (steps sections) = -1).
    { apply findIndex_from_none.
      eapply Forall_impl; [apply (forEach_push_bounds sections 0)|].
      simpl. intros st Hst. unfold is_title_of.
      destruct (Nat.eqb_spec (sectionIndex st) j); [lia|reflexivity]. }
    rewrite Hnone. reflexivity.
Qed.

Lemma nav_dot_goes_to_title_step_witness :
  findIndex (is_title_of 7) (steps alphintra_sections) = 13
  /\ exists s' e,
       handle alphintra_sections (page 10) (EvNavDot 7) (initial_state alphintra_sections)
       = Ok (s', GoToCall 13 :: e)
       /\ currentStepRef s' = 13
       /\ currentSectionIndex alphintra_sections s' = 7%nat.
Proof.
  destruct (nav_dot_goes_to_title_step alphintra_sections 7
              {| section_id := "process"; detail := Some DetailElement; isPortfolio := None |}
              eq_refl) as (Hidx & _ & Hclick & _).
  split; [exact Hidx|].
  destruct (Hclick (page 10) (initial_state alphintra_sections) eq_refl)
    as (s' & e & Hh & _ & Hcur & Hsec & _).
  - vm_compute. discriminate.
  - exists s', e. split; [exact Hh|]. split; [exact Hcur|exact Hsec].
Defined.

(** ** Touch, keyboard and the wheel timer *)

Section HandlerFacts.

Variable sections : list SectionData.

(** A [goToStep] call with the lock free ends on the clamped target. *)
Lemma goToStep_lands dom t s :
  steps sections <> [] ->
  isAnimating s = false ->
  exists s' e,
    goToStep sections dom t s = Ok (s', e)
    /\ currentStepRef s' = clamp_step sections t
    /\ currentStep s' = (if Z.eq_dec (clamp_step sections t) (currentStepRef s)
                         then currentStep s else clamp_step sections t)
    /\ (clamp_step sections t <> currentStepRef s -> isAnimating s' = true)
    /\ (clamp_step sections t = currentStepRef s -> s' = s /\ e = [])
    /\ portfolioNavRef s' = portfolioNavRef s
    /\ wheelAccum s' = wheelAccum s
    /\ goTo_calls e = [].
Proof.
  intros Hne Hfree.
  destruct (goToStep_total sections dom t s Hne) as (s' & e & Hgo).
  destruct (goToStep_frame sections dom t s s' e Hgo) as (Hw & _ & Hnav & _ & _ & Hcalls).
  exists s', e. split; [exact Hgo|].
  destruct (Z.eq_dec (clamp_step sections t) (currentStepRef s)) as [Heq|Hdiff].
  - rewrite goToStep_same in Hgo by exact Heq. injection Hgo as <- <-.
    repeat split; auto; contradiction.
  - destruct (goToStep_accepted sections dom t s s' e Hfree Hdiff Hgo) as (H1 & H2 & H3).
    repeat split; auto; contradiction.
Qed.

Lemma call_goToStep_lands dom t s :
  steps sections <> [] ->
  isAnimating s = false ->
  exists s' e,
    call_goToStep sections dom t s = Ok (s', GoToCall t :: e)
    /\ goToStep sections dom t s = Ok (s', e)
    /\ goTo_calls (GoToCall t :: e) = [t]
    /\ currentStepRef s' = clamp_step sections t
    /\ (clamp_step sections t <> currentStepRef s -> isAnimating s' = true)
    /\ portfolioNavRef s' = portfolioNavRef s
    /\ wheelAccum s' = wheelAccum s.
Proof.
  intros Hne Hfree.
  destruct (goToStep_lands dom t s Hne Hfree)
    as (s' & e & Hgo & Hcur & _ & Hlock & _ & Hnav & Hw & Hcalls).
  exists s', e. split; [|split; [exact Hgo|split; [|auto]]].
  - unfold call_goToStep. cbn [and_then]. rewrite Hgo. reflexivity.
  - change (goTo_calls (GoToCall t :: e)) with (t :: goTo_calls e).
    rewrite Hcalls. reflexivity.
Qed.

(** Under the threshold the wheel handler only accumulates, on every
    step. *)
Lemma onWheel_below dom deltaY s step :
  index (steps sections) (currentStepRef s) = Some step ->
  isAnimating s = false ->
  Z.abs (wheelAccum s + deltaY) < THRESHOLD ->
  onWheel sections dom deltaY s = Ok (accumulate deltaY s, []).
Proof.
  intros Hstep Hfree Hsmall. unfold onWheel. rewrite Hstep, Hfree.
  cbn [wheelAccum accumulate set_wheel].
  destruct (Z.leb_spec THRESHOLD (Z.abs (wheelAccum s + deltaY))); [lia|].
  destruct (decide (subStep step = portfolio)); reflexivity.
Qed.

End HandlerFacts.

(** X8. A touch that ends within 50 pixels of where it started changes
    nothing but the recorded start. A touch that ends more than 50
    pixels away makes exactly one [goToStep] call, to the next step when
    the finger moved up and to the previous step when it moved down; the
    call goes straight to [goToStep] on every step, the gallery step
    included: the gallery and the wheel accumulator are left as they
    were. *)
Theorem touch_swipe
    (sections : list SectionData) (dom : Dom) (s : State) (startY endY : Z) :
  steps sections <> [] ->
  isAnimating s = false ->
  let gesture := [(dom, EvTouchStart startY); (dom, EvTouchEnd endY)] in
  (Z.abs (startY - endY) <= 50 ->
   run sections gesture s = Ok (set_touchStartY startY s, []))
  /\ (50 < Z.abs (startY - endY) ->
      let target :=
        if 0 <? startY - endY then currentStepRef s + 1 else currentStepRef s - 1 in
      exists s' e,
        run sections gesture s = Ok (s', GoToCall target :: e)
        /\ goTo_calls (GoToCall target :: e) = [target]
        /\ currentStepRef s' = clamp_step sections target
        /\ portfolioNavRef s' = portfolioNavRef s
        /\ wheelAccum s' = wheelAccum s).
Proof.
  intros Hne Hfree gesture.
  assert (Hrun : run sections gesture s
                 = and_then (onTouchEnd sections dom endY (set_touchStartY startY s))
                     (fun s => Ok (s, []))).
  { unfold gesture. cbn [run enabledb handle and_then].
    destruct (onTouchEnd sections dom endY (set_touchStartY startY s)) as [[s1 e1]|];
      reflexivity. }
  unfold onTouchEnd in Hrun. cbn [isAnimating touchStartY set_touchStartY] in Hrun.
  rewrite Hfree in Hrun.
  split.
  - intros Hsmall. rewrite Hrun.
    destruct (Z.ltb_spec 50 (Z.abs (startY - endY))); [lia|]. reflexivity.
  - intros Hbig target.
    destruct (Z.ltb_spec 50 (Z.abs (startY - endY))); [|lia].
    destruct (call_goToStep_lands sections dom target (set_touchStartY startY s) Hne Hfree)
      as (s' & e & Hcall & _ & Hcalls & Hcur & _ & Hnav & Hw).
    exists s', e. split; [|auto].
    rewrite Hrun. cbn [currentStepRef set_touchStartY].
    replace (currentStepRef s + (if 0 <? startY - endY then 1 else -1)) with target
      by (unfold target; destruct (0 <? startY - endY); lia).
    rewrite Hcall. cbn [and_then]. rewrite app_nil_r. reflexivity.
Qed.

Lemma touch_swipe_witness :
  exists s' e,
    run alphintra_sections [(page 10, EvTouchStart 600); (page 10, EvTouchEnd 400)]
      (at_gallery 1) = Ok (s', GoToCall 13 :: e)
    /\ currentStepRef s' = 13
    /\ portfolioNavRef s' = portfolioNavRef (at_gallery 1).
Proof.
  destruct (touch_swipe alphintra_sections (page 10) (at_gallery 1) 600 400
              alphintra_steps_nonempty eq_refl) as (_ & Hbig).
  destruct Hbig as (s' & e & Hrun & _ & Hcur & Hnav & _); [cbn; lia|].
  exists s', e. split; [exact Hrun|]. split; [exact Hcur|exact Hnav].
Defined.

(** X9. With the lock free, in a reachable state of a page with steps,
    the keys of the page move the current step as follows: Home to step
    0, End to the last step, ArrowDown, PageDown and Space one step down
    but not past the last step, ArrowUp and PageUp one step up but not
    before step 0; any other key leaves the state as it is. The lock is
    set whenever the step changed, and the gallery is never touched. *)
Theorem keyboard_navigation
    (sections : list SectionData) (dom : Dom) (s : State) (key : Key) :
  reachable sections s ->
  steps sections <> [] ->
  isAnimating s = false ->
  exists s' e,
    onKeyDown sections dom key s = Ok (s', e)
    /\ currentStepRef s' =
         match key with
         | KeyHome => 0
         | KeyEnd => Z.of_nat (length (steps sections)) - 1
         | KeyArrowDown | KeyPageDown | KeySpace =>
             Z.min (currentStepRef s + 1) (Z.of_nat (length (steps sections)) - 1)
         | KeyArrowUp | KeyPageUp => Z.max (currentStepRef s - 1) 0
         | KeyArrowRight | KeyArrowLeft | KeyOther => currentStepRef s
         end
    /\ (currentStepRef s' <> currentStepRef s -> isAnimating s' = true)
    /\ (currentStepRef s' = currentStepRef s -> s' = s)
    /\ portfolioNavRef s' = portfolioNavRef s.
Proof.
  intros Hreach Hne Hfree.
  destruct (current_step_defined sections Hne s (reachable_current_in_range _ _ Hreach))
    as [step Hstep].
  pose proof (index_Some_range _ _ _ Hstep) as Hrange.
  assert (Hcall : forall t target,
             clamp_step sections t = target ->
             exists s' e,
               call_goToStep sections dom t s = Ok (s', e)
               /\ currentStepRef s' = target
               /\ (currentStepRef s' <> currentStepRef s -> isAnimating s' = true)
               /\ (currentStepRef s' = currentStepRef s -> s' = s)
               /\ portfolioNavRef s' = portfolioNavRef s).
  { intros t target Ht.
    destruct (call_goToStep_lands sections dom t s Hne Hfree)
      as (s' & e & Hc & Hgo & _ & Hcur & Hlock & Hnav & _).
    exists s', (GoToCall t :: e). rewrite Ht in Hcur, Hlock.
    split; [exact Hc|]. split; [exact Hcur|]. split; [|split; [|exact Hnav]].
    - intros Hmoved. apply Hlock. congruence.
    - intros Hsame. rewrite goToStep_same in Hgo by congruence. congruence. }
  unfold onKeyDown. rewrite Hfree.
  destruct key; try (exists s, []; repeat split; congruence);
    apply Hcall; unfold clamp_step; lia.
Qed.

Lemma keyboard_navigation_witness :
  exists s' e,
    onKeyDown alphintra_sections (page 10) KeyEnd (initial_state alphintra_sections)
    = Ok (s', e)
    /\ currentStepRef s' = 18
    /\ isAnimating s' = true.
Proof.
  destruct (keyboard_navigation alphintra_sections (page 10)
              (initial_state alphintra_sections) KeyEnd (reach_refl _ _)
              alphintra_steps_nonempty eq_refl) as (s' & e & Hk & Hcur & Hlock & _).
  exists s', e. split; [exact Hk|]. split; [exact Hcur|].
  apply Hlock. rewrite Hcur. discriminate.
Defined.

(** X10. While the lock is held, wheel events, touches, navigation dots
    and the keys of the page leave the whole state as it was: nothing
    is queued, the wheel accumulator does not grow and its timer is not
    set anew, and no tween starts. Only a click on a navigation dot
    still reaches [goToStep], which rejects the call. *)
Theorem input_dropped_while_locked
    (sections : list SectionData) (dom : Dom) (s : State) (step : Step) :
  isAnimating s = true ->
  index (steps sections) (currentStepRef s) = Some step ->
  (forall deltaY, handle sections dom (EvWheel deltaY) s = Ok (s, []))
  /\ (forall clientY, handle sections dom (EvTouchEnd clientY) s = Ok (s, []))
  /\ (forall key, key <> KeyArrowRight -> key <> KeyArrowLeft ->
                  handle sections dom (EvKeyDown key) s = Ok (s, []))
  /\ (forall i, exists e,
         handle sections dom (EvNavDot i) s = Ok (s, e)
         /\ forall x, x ∈ e -> exists t, x = GoToCall t).
Proof.
  intros Hlock Hstep. split; [|split; [|split]].
  - intros deltaY. cbn [handle]. unfold onWheel. rewrite Hstep, Hlock.
    destruct (decide (subStep step = portfolio)); reflexivity.
  - intros clientY. cbn [handle]. unfold onTouchEnd. rewrite Hlock. reflexivity.
  - intros key Hr Hl. cbn [handle].
    assert (Hk : handleKey sections dom key s = Ok (s, [])).
    { unfold handleKey. destruct (portfolioNavRef s) as [g|]; [|reflexivity].
      destruct (isMoving g); [reflexivity|]. destruct key; try reflexivity; contradiction. }
    rewrite Hk. cbn [and_then]. unfold onKeyDown. rewrite Hlock. reflexivity.
  - intros i. cbn [handle].
    destruct (0 <=? findIndex (is_title_of i) (steps sections)).
    + unfold call_goToStep. cbn [and_then]. rewrite goToStep_locked by exact Hlock.
      eexists. split; [reflexivity|].
      intros x Hx. apply list_elem_of_singleton in Hx. eauto.
    + exists []. split; [reflexivity|]. intros x Hx. inversion Hx.
Qed.

Lemma input_dropped_while_locked_witness :
  handle alphintra_sections (page 10) (EvWheel 500)
    (state_after alphintra_sections browse_to_second_detail)
  = Ok (state_after alphintra_sections browse_to_second_detail, []).
Proof.
  assert (Hlock : isAnimating (state_after alphintra_sections browse_to_second_detail)
                  = true) by (vm_compute; reflexivity).
  assert (Hstep : index (steps alphintra_sections)
                    (currentStepRef (state_after alphintra_sections browse_to_second_detail))
                  = Some {| sectionIndex := 2; subStep := detailStep |})
    by (vm_compute; reflexivity).
  destruct (input_dropped_while_locked alphintra_sections (page 10) _ _ Hlock Hstep)
    as (Hwheel & _).
  apply Hwheel.
Defined.

(** X11. The wheel timer forgets a gesture that stopped short: when a
    wheel event has left the accumulator under the threshold and the
    timer fires, a next wheel event under the threshold on its own
    makes no [goToStep] call, however large the sum of the two deltas;
    the accumulator then holds the second delta alone. *)
Theorem wheel_timeout_forgets
    (sections : list SectionData) (dom : Dom) (s : State) (step : Step)
    (delta1 delta2 : Z) :
  index (steps sections) (currentStepRef s) = Some step ->
  isAnimating s = false ->
  Z.abs (wheelAccum s + delta1) < THRESHOLD ->
  Z.abs delta2 < THRESHOLD ->
  run sections [(dom, EvWheel delta1); (dom, EvWheelTimeout); (dom, EvWheel delta2)] s
  = Ok (set_wheel delta2 true s, []).
Proof.
  intros Hstep Hfree H1 H2. cbn [run enabledb handle].
  rewrite (onWheel_below sections dom delta1 s step Hstep Hfree H1).
  cbn [and_then accumulate wheelTimer set_wheel].
  rewrite (onWheel_below sections dom delta2 _ step); [reflexivity|exact Hstep|exact Hfree|].
  cbn [wheelAccum set_wheel]. exact H2.
Qed.

Lemma wheel_timeout_forgets_witness :
  run alphintra_sections
    [(page 10, EvWheel 40); (page 10, EvWheelTimeout); (page 10, EvWheel 40)]
    (initial_state alphintra_sections)
  = Ok (set_wheel 40 true (initial_state alphintra_sections), []).
Proof.
  apply (wheel_timeout_forgets alphintra_sections (page 10) (initial_state alphintra_sections)
           {| sectionIndex := 0; subStep := title |} 40 40).
  - reflexivity.
  - reflexivity.
  - cbn. unfold THRESHOLD. lia.
  - cbn. unfold THRESHOLD. lia.
Defined.

(** ** The gallery inside the page *)

(** X12. On the gallery step, with the lock free, a wheel gesture that
    reaches the threshold while the gallery has a card in that
    direction is absorbed by the gallery: the track tween to that card
    starts, the card and the slide lock are updated, the accumulator is
    zero, and the page keeps its step and its free lock with no
    [goToStep] call. While the gallery is still sliding the gesture is
    swallowed: the accumulator is zeroed and nothing else happens. *)
Theorem gallery_absorbs_intent
    (sections : list SectionData) (dom : Dom) (s : State) (step : Step)
    (g : Gallery) (deltaY : Z) :
  index (steps sections) (currentStepRef s) = Some step ->
  subStep step = portfolio ->
  isAnimating s = false ->
  portfolioNavRef s = Some g ->
  THRESHOLD <= Z.abs (wheelAccum s + deltaY) ->
  let card := if 0 <? wheelAccum s + deltaY then currentCard g + 1 else currentCard g - 1 in
  (isMoving g = true ->
   onWheel sections dom deltaY s = Ok (set_wheel 0 true s, []))
  /\ (isMoving g = false -> track dom = true ->
      0 <= card < Z.of_nat (length projects) ->
      onWheel sections dom deltaY s
      = Ok (set_gallery
              (Some {| currentCard := card; isMoving := true;
                       slideTweens := S (slideTweens g) |})
              (set_wheel 0 true s),
            [SlideTrack card])).
Proof.
  intros Hstep Hkind Hfree Hnav Hbig card.
  rewrite (onWheel_gallery sections dom deltaY s step g Hstep Hkind Hfree Hnav Hbig).
  unfold nav_next, nav_prev. fold card.
  assert (Hcard : (if 0 <? wheelAccum s + deltaY
                   then slideTo (track dom) (currentCard g + 1) g
                   else slideTo (track dom) (currentCard g - 1) g)
                  = slideTo (track dom) card g)
    by (unfold card; destruct (0 <? wheelAccum s + deltaY); reflexivity).
  split.
  - intros Hmoving.
    assert (Hsame : set_gallery (Some g) (set_wheel 0 true s) = set_wheel 0 true s).
    { destruct s; cbn in *. rewrite Hnav. reflexivity. }
    destruct (0 <? wheelAccum s + deltaY); cbn zeta;
      rewrite slideTo_locked by exact Hmoving; cbn [fst snd]; rewrite Hsame; reflexivity.
  - intros Hidle Htrack Hrange.
    assert (Hslide : slideTo (track dom) card g
                     = (true,
                        {| currentCard := card; isMoving := true;
                           slideTweens := S (slideTweens g) |},
                        [SlideTrack card])).
    { unfold slideTo. rewrite Hidle, Htrack.
      destruct (Z.ltb_spec card 0); [lia|].
      destruct (Z.leb_spec (Z.of_nat (length projects)) card); [lia|]. reflexivity. }
    unfold card in Hslide.
    destruct (0 <? wheelAccum s + deltaY); cbn zeta; rewrite Hslide; reflexivity.
Qed.

Lemma gallery_absorbs_intent_witness :
  onWheel alphintra_sections (page 10) 60 (at_gallery 1)
  = Ok (set_gallery
          (Some {| currentCard := 2; isMoving := true; slideTweens := 1 |})
          (set_wheel 0 true (at_gallery 1)),
        [SlideTrack 2]).
Proof.
  destruct (gallery_absorbs_intent alphintra_sections (page 10) (at_gallery 1)
              {| sectionIndex := 6; subStep := portfolio |}
              {| currentCard := 1; isMoving := false; slideTweens := 0 |} 60)
    as (_ & Hslide).
  - reflexivity.
  - reflexivity.
  - reflexivity.
  - reflexivity.
  - cbn. unfold THRESHOLD. lia.
  - apply Hslide; [reflexivity|reflexivity|].
    split; [vm_compute; discriminate|vm_compute; reflexivity].
Defined.

(** X13. The arrow keys of the gallery act on every step of the page,
    not on the gallery step alone. With the gallery idle and the page
    lock free: ArrowRight at the last card makes one
    [goToStep (currentStepRef + 1)] call, and ArrowLeft at the first
    card one [goToStep (currentStepRef - 1)] call, whatever step is
    current; with a card in that direction and the track in the
    document, the key slides the gallery and leaves the page as it is. *)
Theorem gallery_keys_act_on_every_step
    (sections : list SectionData) (dom : Dom) (s : State) (g : Gallery)
    (key : Key) :
  steps sections <> [] ->
  isAnimating s = false ->
  portfolioNavRef s = Some g ->
  isMoving g = false ->
  key = KeyArrowRight \/ key = KeyArrowLeft ->
  let card := match key with KeyArrowRight => currentCard g + 1 | _ => currentCard g - 1 end in
  let target :=
    match key with KeyArrowRight => currentStepRef s + 1 | _ => currentStepRef s - 1 end in
  ((card < 0 \/ Z.of_nat (length projects) <= card) ->
   exists s' e,
     handle sections dom (EvKeyDown key) s = Ok (s', GoToCall target :: e)
     /\ goTo_calls (GoToCall target :: e) = [target]
     /\ currentStepRef s' = clamp_step sections target
     /\ portfolioNavRef s' = Some g)
  /\ (0 <= card < Z.of_nat (length projects) -> track dom = true ->
      handle sections dom (EvKeyDown key) s
      = Ok (set_gallery
              (Some {| currentCard := card; isMoving := true;
                       slideTweens := S (slideTweens g) |}) s,
            [SlideTrack card])).
Proof.
  intros Hne Hfree Hnav Hidle Hkey card target.
  assert (Hkeydown : forall s1, onKeyDown sections dom key s1 = Ok (s1, [])).
  { intros s1. unfold onKeyDown. destruct (isAnimating s1); [reflexivity|].
    destruct Hkey as [-> | ->]; reflexivity. }
  assert (Hhandle : handleKey sections dom key s =
                    let r := slideTo (track dom) card g in
                    let s1 := set_gallery (Some r.1.2) s in
                    if r.1.1 then Ok (s1, r.2)
                    else and_then (Ok (s1, r.2))
                           (fun s0 => call_goToStep sections dom
                                        match key with
                                        | KeyArrowRight => currentStepRef s0 + 1
                                        | _ => currentStepRef s0 - 1
                                        end s0)).
  { unfold handleKey, card. rewrite Hnav, Hidle.
    destruct Hkey as [-> | ->]; reflexivity. }
  cbn [handle]. rewrite Hhandle. cbn zeta. split.
  - intros Hout. rewrite (slideTo_out_of_range (track dom) card g Hidle Hout).
    cbn [fst snd and_then].
    assert (Hsame : set_gallery (Some g) s = s).
    { destruct s; cbn in *. rewrite Hnav. reflexivity. }
    rewrite Hsame. fold target.
    destruct (call_goToStep_lands sections dom target s Hne Hfree)
      as (s' & e & Hcall & _ & Hcalls & Hcur & _ & Hnav' & _).
    rewrite Hcall. cbn [app and_then]. rewrite Hkeydown.
    exists s', e. split; [rewrite app_nil_r; reflexivity|].
    split; [exact Hcalls|]. split; [exact Hcur|]. congruence.
  - intros Hrange Htrack.
    assert (Hslide : slideTo (track dom) card g
                     = (true,
                        {| currentCard := card; isMoving := true;
                           slideTweens := S (slideTweens g) |},
                        [SlideTrack card])).
    { unfold slideTo. rewrite Hidle, Htrack.
      destruct (Z.ltb_spec card 0); [lia|].
      destruct (Z.leb_spec (Z.of_nat (length projects)) card); [lia|]. reflexivity. }
    rewrite Hslide. cbn [fst snd and_then]. rewrite Hkeydown. reflexivity.
Qed.

Lemma gallery_keys_act_on_every_step_witness :
  exists s' e,
    handle alphintra_sections (page 10) (EvKeyDown KeyArrowLeft)
      (initial_state alphintra_sections) = Ok (s', GoToCall (-1) :: e)
    /\ currentStepRef s' = 0.
Proof.
  destruct (gallery_keys_act_on_every_step alphintra_sections (page 10)
              (initial_state alphintra_sections) gallery_init KeyArrowLeft
              alphintra_steps_nonempty eq_refl eq_refl eq_refl (or_intror eq_refl))
    as (Hout & _).
  destruct Hout as (s' & e & Hh & _ & Hcur & _); [left; cbn; lia|].
  exists s', e. split; [exact Hh|exact Hcur].
Defined.

(** ** The gallery on its own *)

Lemma slideTo_in_range trackRef i g :
  gallery_in_range g -> gallery_in_range (slideTo trackRef i g).1.2.
Proof.
  intros Hg. pose proof Hg as (Hcard & Hle & Hmov). unfold slideTo.
  destruct (isMoving g) eqn:Hm; [exact Hg|].
  destruct (Z.ltb_spec i 0); [exact Hg|].
  destruct (Z.leb_spec (Z.of_nat (length projects)) i); [exact Hg|].
  assert (Hzero : slideTweens g = 0%nat).
  { destruct (slideTweens g); [reflexivity|].
    assert (Hpos : (0 < S n)%nat) by lia. specialize (Hmov Hpos). congruence. }
  destruct trackRef; unfold gallery_in_range;
    cbn [orb negb fst snd currentCard isMoving slideTweens]; rewrite ?Hzero;
    (split; [lia|split; [lia|reflexivity]]).
Qed.

Lemma gallery_step_in_range trackRef c g :
  gallery_in_range g -> gallery_in_range (gallery_step trackRef c g).
Proof.
  intros Hg. destruct c; cbn [gallery_step]; try apply slideTo_in_range, Hg.
  destruct Hg as (Hcard & Hle & _). unfold slide_complete, gallery_in_range.
  cbn [currentCard isMoving slideTweens].
  split; [exact Hcard|].
  destruct (slideTweens g) as [|[|n]]; cbn [pred]; [split; [lia|intros Hpos; lia]..|lia].
Qed.

(** X14. In every reachable state of the gallery the current card is
    one of the projects, at most one track tween is in flight, and the
    slide lock is held while a tween is in flight. *)
Theorem gallery_card_in_range (g : Gallery) :
  gallery_reachable g ->
  0 <= currentCard g < Z.of_nat (length projects)
  /\ (slideTweens g <= 1)%nat
  /\ ((0 < slideTweens g)%nat -> isMoving g = true).
Proof.
  intros Hreach. change (gallery_in_range g).
  induction Hreach as [|trackRef c g Hreach IH Hen].
  - unfold gallery_in_range. cbn. split; [lia|]. split; [lia|]. intros Hpos. lia.
  - apply gallery_step_in_range, IH.
Qed.

Lemma gallery_card_in_range_witness :
  0 <= currentCard (gallery_step true (CallSlideTo 9) (gallery_step true CallNext gallery_init))
    < 4.
Proof.
  destruct (gallery_card_in_range
              (gallery_step true (CallSlideTo 9) (gallery_step true CallNext gallery_init)))
    as (Hcard & _).
  - apply gallery_reach_step; [|exact I].
    apply gallery_reach_step; [apply gallery_reach_init|exact I].
  - exact Hcard.
Defined.

(** X15. From an idle gallery whose track is in the document and which
    has a next card: [next] answers [true] and goes to that card; a
    second [next] before the slide completes answers [true] too and
    skips no card; after the slide has completed, [prev] answers [true]
    and, once its slide has completed, the gallery is back in the state
    it started from. *)
Theorem gallery_next_prev_round_trip (g : Gallery) :
  isMoving g = false ->
  slideTweens g = 0%nat ->
  0 <= currentCard g ->
  currentCard g + 1 < Z.of_nat (length projects) ->
  let g1 := gallery_step true CallNext g in
  let g2 := gallery_step true CallSlideComplete g1 in
  let g3 := gallery_step true CallPrev g2 in
  let g4 := gallery_step true CallSlideComplete g3 in
  nav_next true g = (true, g1, [SlideTrack (currentCard g + 1)])
  /\ currentCard g1 = currentCard g + 1
  /\ nav_next true g1 = (true, g1, [])
  /\ gallery_enabled CallSlideComplete g1
  /\ nav_prev true g2 = (true, g3, [SlideTrack (currentCard g)])
  /\ gallery_enabled CallSlideComplete g3
  /\ g4 = g.
Proof.
  intros Hidle Hzero Hlow Hhigh. destruct g as [card moving tweens].
  cbn [currentCard isMoving slideTweens] in *. subst.
  assert (Hnext : slideTo true (card + 1) {| currentCard := card; isMoving := false;
                                             slideTweens := 0 |}
                  = (true, {| currentCard := card + 1; isMoving := true; slideTweens := 1 |},
                     [SlideTrack (card + 1)])).
  { unfold slideTo. cbn [isMoving negb slideTweens].
    destruct (Z.ltb_spec (card + 1) 0); [lia|].
    destruct (Z.leb_spec (Z.of_nat (length projects)) (card + 1)); [lia|]. reflexivity. }
  assert (Hprev : slideTo true (card + 1 - 1)
                    {| currentCard := card + 1; isMoving := false; slideTweens := 0 |}
                  = (true, {| currentCard := card; isMoving := true; slideTweens := 1 |},
                     [SlideTrack card])).
  { unfold slideTo. cbn [isMoving negb slideTweens].
    replace (card + 1 - 1) with card by lia.
    destruct (Z.ltb_spec card 0); [lia|].
    destruct (Z.leb_spec (Z.of_nat (length projects)) card); [lia|]. reflexivity. }
  cbv zeta. unfold gallery_step, nav_next, nav_prev. cbn [currentCard].
  rewrite Hnext. cbn [fst snd]. unfold slide_complete.
  cbn [currentCard isMoving slideTweens pred]. rewrite Hprev. cbn [fst snd].
  cbn [currentCard isMoving slideTweens pred gallery_enabled].
  repeat split; try lia.
Qed.

Lemma gallery_next_prev_round_trip_witness :
  gallery_step true CallSlideComplete
    (gallery_step true CallPrev
       (gallery_step true CallSlideComplete (gallery_step true CallNext gallery_init)))
  = gallery_init.
Proof.
  destruct (gallery_next_prev_round_trip gallery_init eq_refl eq_refl)
    as (_ & _ & _ & _ & _ & _ & Hback).
  - cbn. lia.
  - cbn. lia.
  - exact Hback.
Defined.

(** ** Invariants that depend on the document or on the gallery *)

Section HandleAt.

Variable sections : list SectionData.
Variable dom : Dom.

(** As [handle_preserves], for the events of one document, and with the
    gallery changed only by steps of the gallery. *)
Lemma handle_preserves_at (P : State -> Prop) :
  (forall a b s, P s -> P (set_wheel a b s)) ->
  (forall g c s, P s -> portfolioNavRef s = Some g -> gallery_enabled c g ->
                 P (set_gallery (Some (gallery_step (track dom) c g)) s)) ->
  (forall y s, P s -> P (set_touchStartY y s)) ->
  (forall b s, P s -> P (set_heroTimer b s)) ->
  (forall a s, P s -> P (set_activeTextSections a s)) ->
  (forall t s s' e, P s -> goToStep sections dom t s = Ok (s', e) -> P s') ->
  forall ev s s' e,
    P s -> enabled ev s ->
    (ev = EvScrollTweenComplete -> (0 < scrollTweens s)%nat ->
     P (set_scrollTweens (pred (scrollTweens s)) (set_isAnimating false s))) ->
    handle sections dom ev s = Ok (s', e) -> P s'.
Proof.
  intros Hwheel Hgal Htouch Hhero Hact Hgo ev s s' e HP Hen Hdone Hh.
  assert (Hcall : forall t s s' e,
             P s -> call_goToStep sections dom t s = Ok (s', e) -> P s').
  { intros t0 s0 s0' e0 HP0 Hc. apply call_goToStep_Ok in Hc.
    destruct Hc as (e2 & Hc & _). eauto. }
  assert (Hbubble : forall t r s s' e,
             P s ->
             and_then (Ok (s, r)) (fun s => call_goToStep sections dom (currentStepRef s + t) s)
             = Ok (s', e) -> P s').
  { intros t0 r0 s0 s0' e0 HP0 Hc. apply and_then_Ok in Hc.
    destruct Hc as (s1 & e1 & e2 & [= <- <-] & Hc & _). eauto. }
  assert (Hslide : forall g c s0,
             P s0 -> portfolioNavRef s0 = Some g -> gallery_enabled c g ->
             forall g', g' = gallery_step (track dom) c g -> P (set_gallery (Some g') s0)).
  { intros g c s0 HP0 Hnav Hc g' ->. apply Hgal; assumption. }
  destruct ev; cbn [handle] in Hh.
  - unfold onWheel, accumulate in Hh.
    destruct (index (steps sections) (currentStepRef s)) as [step|]; [|discriminate].
    destruct (decide (subStep step = portfolio)).
    + destruct (isAnimating s); [injection Hh as <- <-; exact HP|].
      match type of Hh with
      | context [THRESHOLD <=? ?x] => destruct (THRESHOLD <=? x)
      end; [|injection Hh as <- <-; auto].
      cbn [portfolioNavRef set_wheel] in Hh.
      destruct (portfolioNavRef s) as [g|] eqn:Hnav.
      * match type of Hh with
        | context [0 <? ?x] => destruct (0 <? x)
        end.
        -- destruct (nav_next (track dom) g).1.1.
           ++ injection Hh as <- <-.
              apply (Hslide g CallNext); [auto|exact Hnav|exact I|reflexivity].
           ++ eapply (Hbubble 1); [|exact Hh].
              apply (Hslide g CallNext); [auto|exact Hnav|exact I|reflexivity].
        -- destruct (nav_prev (track dom) g).1.1.
           ++ injection Hh as <- <-.
              apply (Hslide g CallPrev); [auto|exact Hnav|exact I|reflexivity].
           ++ eapply (Hbubble (-1)); [|exact Hh].
              apply (Hslide g CallPrev); [auto|exact Hnav|exact I|reflexivity].
      * eapply Hcall; [|exact Hh]. auto.
    + destruct (isAnimating s); [injection Hh as <- <-; exact HP|].
      match type of Hh with
      | context [THRESHOLD <=? ?x] => destruct (THRESHOLD <=? x)
      end; [|injection Hh as <- <-; auto].
      eapply Hcall; [|exact Hh]. auto.
  - injection Hh as <- <-. auto.
  - unfold onTouchEnd in Hh.
    destruct (isAnimating s); [injection Hh as <- <-; exact HP|].
    match type of Hh with
    | context [50 <? ?x] => destruct (50 <? x)
    end; [|injection Hh as <- <-; auto].
    eapply Hcall; [|exact Hh]. auto.
  - apply and_then_Ok in Hh. destruct Hh as (s1 & e1 & e2 & Hk1 & Hk2 & _).
    assert (HP1 : P s1).
    { unfold handleKey in Hk1.
      destruct (portfolioNavRef s) as [g|] eqn:Hnav; [|injection Hk1 as <- <-; exact HP].
      destruct (isMoving g); [injection Hk1 as <- <-; exact HP|].
      destruct key; try (injection Hk1 as <- <-; exact HP).
      - destruct (slideTo (track dom) (currentCard g + 1) g).1.1.
        + injection Hk1 as <- <-.
          apply (Hslide g CallNext); [exact HP|exact Hnav|exact I|reflexivity].
        + eapply (Hbubble 1); [|exact Hk1].
          apply (Hslide g CallNext); [exact HP|exact Hnav|exact I|reflexivity].
      - destruct (slideTo (track dom) (currentCard g - 1) g).1.1.
        + injection Hk1 as <- <-.
          apply (Hslide g CallPrev); [exact HP|exact Hnav|exact I|reflexivity].
        + eapply (Hbubble (-1)); [|exact Hk1].
          apply (Hslide g CallPrev); [exact HP|exact Hnav|exact I|reflexivity]. }
    unfold onKeyDown in Hk2.
    destruct (isAnimating s1); [injection Hk2 as <- <-; exact HP1|].
    destruct key; try (injection Hk2 as <- <-; exact HP1);
      (eapply Hcall; [|exact Hk2]; exact HP1).
  - match type of Hh with
    | context [0 <=? ?x] => destruct (0 <=? x)
    end; [|injection Hh as <- <-; exact HP].
    eapply Hcall; [|exact Hh]. exact HP.
  - destruct (portfolioNavRef s) as [g|] eqn:Hnav; injection Hh as <- <-; [|exact HP].
    apply (Hslide g (CallSlideTo (Z.of_nat card))); [exact HP|exact Hnav|exact I|reflexivity].
  - injection Hh as <- <-. exact HP.
  - injection Hh as <- <-. exact HP.
  - injection Hh as <- <-. apply Hdone; [reflexivity|].
    unfold enabled, enabledb in Hen. apply Nat.ltb_lt in Hen. exact Hen.
  - unfold enabled, enabledb in Hen.
    destruct (portfolioNavRef s) as [g|] eqn:Hnav; injection Hh as <- <-; [|exact HP].
    apply (Hslide g CallSlideComplete); [exact HP|exact Hnav| |reflexivity].
    cbn. apply Nat.ltb_lt in Hen. exact Hen.
  - injection Hh as <- <-. auto.
  - destruct (animateTextIn_shape dom 0%nat true (set_heroTimer false s))
      as (a & e0 & Heq & _).
    rewrite Heq in Hh. injection Hh as <- <-. auto.
Qed.

End HandleAt.

(** X16. The gallery the page holds is always in a state the gallery
    can reach on its own: the wheel handler, the arrow keys, the gallery
    dots and the track tween move it by steps of the gallery only, and
    [goToStep] never touches it. So in every reachable state of the page
    the current card is one of the projects. *)
Theorem page_gallery_reachable (sections : list SectionData) (s : State) (g : Gallery) :
  reachable sections s ->
  portfolioNavRef s = Some g ->
  gallery_reachable g
  /\ 0 <= currentCard g < Z.of_nat (length projects).
Proof.
  intros Hreach Hnav.
  assert (Hinv : forall g0, portfolioNavRef s = Some g0 -> gallery_reachable g0).
  { refine (reachable_from_preserves sections
              (fun s => forall g0, portfolioNavRef s = Some g0 -> gallery_reachable g0)
              _ _ s _ Hreach).
    - intros dom ev s1 s1' e HP Hen.
      apply (handle_preserves_at sections dom
               (fun s => forall g0, portfolioNavRef s = Some g0 -> gallery_reachable g0));
        try exact HP; try exact Hen.
      + intros a b s0 HP0 g0 Hg0. exact (HP0 g0 Hg0).
      + intros g1 c s0 HP0 Hnav0 Hc g0 [= <-].
        apply gallery_reach_step; [apply HP0, Hnav0|exact Hc].
      + intros y s0 HP0 g0 Hg0. exact (HP0 g0 Hg0).
      + intros b s0 HP0 g0 Hg0. exact (HP0 g0 Hg0).
      + intros a s0 HP0 g0 Hg0. exact (HP0 g0 Hg0).
      + intros t s0 s0' e0 HP0 Hgo g0 Hg0.
        destruct (goToStep_frame sections dom t s0 s0' e0 Hgo) as (_ & _ & Hsame & _).
        apply HP0. congruence.
      + intros _ _ g0 Hg0. exact (HP g0 Hg0).
    - intros g0. cbn.
      destruct (existsb _ sections); [intros [= <-]; apply gallery_reach_init|discriminate]. }
  pose proof (Hinv g Hnav) as Hg. split; [exact Hg|].
  assert (Hrange : gallery_in_range g).
  { clear -Hg. induction Hg as [|trackRef c g Hreach IH Hen].
    - unfold gallery_in_range. cbn. split; [lia|]. split; [lia|]. intros Hpos. lia.
    - apply gallery_step_in_range, IH. }
  apply Hrange.
Qed.

Lemma page_gallery_reachable_witness :
  exists s g,
    handle alphintra_sections (page 10) (EvKeyDown KeyArrowRight)
      (initial_state alphintra_sections) = Ok (s, [SlideTrack 1])
    /\ portfolioNavRef s = Some g
    /\ gallery_reachable g
    /\ 0 <= currentCard g < 4.
Proof.
  assert (Hkey : exists s,
             handle alphintra_sections (page 10) (EvKeyDown KeyArrowRight)
               (initial_state alphintra_sections) = Ok (s, [SlideTrack 1])
             /\ portfolioNavRef s
                = Some {| currentCard := 1; isMoving := true; slideTweens := 1 |}).
  { eexists. split; [vm_compute; reflexivity|reflexivity]. }
  destruct Hkey as (s & Hh & Hnav).
  assert (Hreach : reachable alphintra_sections s).
  { exact (reach_step alphintra_sections _ (page 10) (EvKeyDown KeyArrowRight) _ s _
             (reach_refl _ _) eq_refl Hh). }
  destruct (page_gallery_reachable alphintra_sections s _ Hreach Hnav) as (Hg & Hcard).
  exists s, {| currentCard := 1; isMoving := true; slideTweens := 1 |}.
  split; [exact Hh|]. split; [exact Hnav|]. split; [exact Hg|exact Hcard].
Defined.

(** ** Pages whose section elements stay in the document *)

Lemma mounted_section_element sections dom i step :
  mounted sections dom ->
  index (steps sections) i = Some step ->
  exists targetEl, getSectionElements dom (sectionIndex step) = Some targetEl.
Proof.
  intros (els & Hels & Hlen) Hstep.
  destruct (step_section_defined _ _ _ Hstep) as [sec Hsec].
  apply lookup_lt_Some in Hsec.
  unfold getSectionElements. rewrite Hels.
  apply lookup_lt_is_Some_2. lia.
Qed.

Lemma page_mounted (sections : list SectionData) :
  mounted sections (page (length sections)).
Proof.
  eexists. split; [reflexivity|]. rewrite length_map, length_seq. lia.
Qed.

Lemma goToStep_lock_has_tween sections dom t s s' e :
  mounted sections dom ->
  lock_has_tween s -> goToStep sections dom t s = Ok (s', e) -> lock_has_tween s'.
Proof.
  intros Hdom Hinv Hgo.
  destruct (goToStep_Ok_cases _ _ _ _ _ _ Hgo)
    as [(-> & _)|(Hfree & Hne & step & sec & Hstep & Hsec)]; [exact Hinv|].
  destruct (goToStep_commit sections dom t s step sec Hfree Hne Hstep Hsec)
    as (a & et & _ & Heq).
  cbn zeta in Heq. rewrite Heq in Hgo.
  destruct (mounted_section_element sections dom _ step Hdom Hstep) as [el Hel].
  rewrite Hel in Hgo. injection Hgo as <- <-.
  destruct Hinv as [_ Hidle]. rewrite (Hidle Hfree).
  split; cbn; [reflexivity|discriminate].
Qed.

Lemma reachable_mounted_lock_has_tween sections s :
  reachable_mounted sections s -> lock_has_tween s.
Proof.
  induction 1 as [|dom ev s s' e Hreach IH Hdom Hen Hh].
  - split; cbn; [discriminate|reflexivity].
  - revert Hh. apply (handle_preserves_at sections dom lock_has_tween);
      try (intros; assumption).
    + intros t s0 s0' e0. apply goToStep_lock_has_tween, Hdom.
    + intros _ Hpos. destruct IH as [Hlock Hidle].
      destruct (isAnimating s) eqn:Ha.
      * rewrite (Hlock eq_refl). split; cbn; [discriminate|reflexivity].
      * rewrite (Hidle eq_refl) in Hpos. lia.
Qed.

Lemma reachable_mounted_reachable sections s :
  reachable_mounted sections s -> reachable sections s.
Proof.
  induction 1 as [|dom ev s s' e Hreach IH Hdom Hen Hh]; [apply reach_refl|].
  exact (reach_step sections _ dom ev s s' e IH Hen Hh).
Qed.

(** X17. When every event finds all section elements in the document,
    the lock is never stuck: in each such reachable state the lock is
    held exactly while one window tween is in flight, so whenever the
    lock is held the completion of the tween is enabled, and it frees
    the lock on the same step. *)
Theorem lock_released_when_mounted
    (sections : list SectionData) (s : State) (dom : Dom) :
  reachable_mounted sections s ->
  isAnimating s = true ->
  scrollTweens s = 1%nat
  /\ enabled EvScrollTweenComplete s
  /\ exists s' e,
       handle sections dom EvScrollTweenComplete s = Ok (s', e)
       /\ isAnimating s' = false
       /\ scrollTweens s' = 0%nat
       /\ currentStepRef s' = currentStepRef s.
Proof.
  intros Hreach Hlock.
  destruct (reachable_mounted_lock_has_tween sections s Hreach) as [Hone _].
  specialize (Hone Hlock).
  split; [exact Hone|]. split; [unfold enabled; cbn; rewrite Hone; reflexivity|].
  eexists _, _. split; [reflexivity|]. cbn. rewrite Hone. repeat split.
Qed.

Lemma lock_released_when_mounted_witness :
  exists s1 e1 s2 e2,
    handle alphintra_sections (page 10) (EvKeyDown KeyEnd) (initial_state alphintra_sections)
    = Ok (s1, e1)
    /\ handle alphintra_sections (page 10) EvScrollTweenComplete s1 = Ok (s2, e2)
    /\ isAnimating s2 = false
    /\ currentStepRef s2 = 18.
Proof.
  assert (Hkey : exists s1 e1,
             handle alphintra_sections (page 10) (EvKeyDown KeyEnd)
               (initial_state alphintra_sections) = Ok (s1, e1)
             /\ isAnimating s1 = true /\ currentStepRef s1 = 18).
  { eexists _, _. split; [vm_compute; reflexivity|]. split; reflexivity. }
  destruct Hkey as (s1 & e1 & Hh & Hlock & Hcur).
  assert (Hreach : reachable_mounted alphintra_sections s1).
  { exact (mounted_step alphintra_sections (page 10) (EvKeyDown KeyEnd) _ s1 e1
             (mounted_init _) (page_mounted alphintra_sections) eq_refl Hh). }
  destruct (lock_released_when_mounted alphintra_sections s1 (page 10) Hreach Hlock)
    as (_ & _ & s2 & e2 & Hdone & Hfree & _ & Hsame).
  exists s1, e1, s2, e2. split; [exact Hh|]. split; [exact Hdone|].
  split; [exact Hfree|]. congruence.
Defined.

(** X18. An accepted [goToStep] call made while the section elements
    are in the document issues exactly one scroll command, the last of
    its effects, and its target is the [offsetTop] of the section
    element of the arriving step: two steps of one section scroll to
    the same place. *)
Theorem scroll_targets_section
    (sections : list SectionData) (dom : Dom) (t : Z) (s s' : State)
    (e : list Effect) :
  mounted sections dom ->
  isAnimating s = false ->
  clamp_step sections t <> currentStepRef s ->
  goToStep sections dom t s = Ok (s', e) ->
  exists step targetEl e_text,
    index (steps sections) (clamp_step sections t) = Some step
    /\ getSectionElements dom (sectionIndex step) = Some targetEl
    /\ e = e_text ++ [ScrollTo (offsetTop targetEl)]
    /\ (forall y, ScrollTo y ∉ e_text)
    /\ scrollTweens s' = S (scrollTweens s).
Proof.
  intros Hdom Hfree Hne Hgo.
  destruct (goToStep_Ok_cases _ _ _ _ _ _ Hgo)
    as [(_ & _ & [Hl|Heq])|(_ & _ & step & sec & Hstep & Hsec)];
    [congruence|contradiction|].
  destruct (goToStep_commit sections dom t s step sec Hfree Hne Hstep Hsec)
    as (a & et & Het & Heq).
  cbn zeta in Heq. rewrite Heq in Hgo.
  destruct (mounted_section_element sections dom _ step Hdom Hstep) as [el Hel].
  rewrite Hel in Hgo. injection Hgo as <- <-.
  exists step, el, et. split; [exact Hstep|]. split; [exact Hel|].
  split; [reflexivity|]. split; [|reflexivity].
  apply text_effects_no_calls, Het.
Qed.

Lemma scroll_targets_section_witness :
  exists s' e_text,
    goToStep alphintra_sections (page 10) 4 (initial_state alphintra_sections)
    = Ok (s', e_text ++ [ScrollTo 2000]).
Proof.
  assert (Hrun : exists s' e,
             goToStep alphintra_sections (page 10) 4 (initial_state alphintra_sections)
             = Ok (s', e)).
  { eexists _, _. vm_compute. reflexivity. }
  destruct Hrun as (s' & e & Hgo).
  destruct (scroll_targets_section alphintra_sections (page 10) 4
              (initial_state alphintra_sections) s' e (page_mounted alphintra_sections)
              eq_refl) as (step & el & et & Hstep & Hel & He & _).
  - vm_compute. discriminate.
  - exact Hgo.
  - vm_compute in Hstep. injection Hstep as <-.
    vm_compute in Hel. injection Hel as <-.
    exists s', et. rewrite Hgo, He. reflexivity.
Defined.

Section EveryStep.

Variable sections : list SectionData.

Lemma arrow_down_advances s :
  reachable_mounted sections s ->
  isAnimating s = false ->
  currentStepRef s + 1 < Z.of_nat (length (steps sections)) ->
  exists s2,
    reachable_mounted sections s2
    /\ isAnimating s2 = false
    /\ currentStepRef s2 = currentStepRef s + 1.
Proof.
  intros Hreach Hfree Hnext.
  pose proof (reachable_mounted_reachable _ _ Hreach) as Hr.
  assert (Hne : steps sections <> []).
  { intros Hnil. rewrite Hnil in Hnext. simpl in Hnext.
    destruct (reachable_current_in_range _ _ Hr) as [_ Hclamp].
    rewrite clamp_step_empty in Hclamp by exact Hnil. lia. }
  destruct (current_step_defined sections Hne s (reachable_current_in_range _ _ Hr))
    as [step Hstep].
  pose proof (index_Some_range _ _ _ Hstep) as Hrange.
  set (dom := page (length sections)).
  destruct (call_goToStep_lands sections dom (currentStepRef s + 1) s Hne Hfree)
    as (s1 & e & Hcall & _ & _ & Hcur & Hlock & _).
  rewrite clamp_step_in_range in Hcur, Hlock by lia.
  assert (Hh : handle sections dom (EvKeyDown KeyArrowDown) s
               = Ok (s1, GoToCall (currentStepRef s + 1) :: e)).
  { cbn [handle].
    assert (Hk : handleKey sections dom KeyArrowDown s = Ok (s, [])).
    { unfold handleKey. destruct (portfolioNavRef s) as [g|]; [|reflexivity].
      destruct (isMoving g); reflexivity. }
    rewrite Hk. cbn [and_then]. unfold onKeyDown. rewrite Hfree, Hcall. reflexivity. }
  assert (Hreach1 : reachable_mounted sections s1).
  { exact (mounted_step sections dom (EvKeyDown KeyArrowDown) s s1 _
             Hreach (page_mounted sections) eq_refl Hh). }
  assert (Hlock1 : isAnimating s1 = true) by (apply Hlock; lia).
  destruct (reachable_mounted_lock_has_tween sections s1 Hreach1) as [Hone _].
  specialize (Hone Hlock1).
  exists (set_scrollTweens (pred (scrollTweens s1)) (set_isAnimating false s1)).
  split; [|split; [reflexivity|exact Hcur]].
  refine (mounted_step sections dom EvScrollTweenComplete s1 _ _
            Hreach1 (page_mounted sections) _ eq_refl).
  unfold enabled. cbn. rewrite Hone. reflexivity.
Qed.

End EveryStep.

(** X19. Every step of the page can be reached and rested on: for each
    index of the step list there is a state, reachable with all section
    elements in the document, in which that step is current and the
    lock is free. Pressing ArrowDown and letting the tween complete,
    again and again from the top, gets there. *)
Theorem every_step_reachable (sections : list SectionData) (k : nat) :
  (k < length (steps sections))%nat ->
  exists s,
    reachable_mounted sections s
    /\ reachable sections s
    /\ isAnimating s = false
    /\ currentStepRef s = Z.of_nat k.
Proof.
  intros Hk.
  assert (Hgoal : exists s, reachable_mounted sections s /\ isAnimating s = false
                            /\ currentStepRef s = Z.of_nat k).
  { induction k as [|k IH].
    - exists (initial_state sections). split; [apply mounted_init|]. split; reflexivity.
    - destruct IH as (s & Hreach & Hfree & Hcur); [lia|].
      destruct (arrow_down_advances sections s Hreach Hfree) as (s2 & Hr2 & Hf2 & Hc2);
        [lia|].
      exists s2. split; [exact Hr2|]. split; [exact Hf2|]. lia. }
  destruct Hgoal as (s & Hreach & Hfree & Hcur).
  exists s. split; [exact Hreach|]. split; [|auto].
  apply reachable_mounted_reachable, Hreach.
Qed.

Lemma every_step_reachable_witness :
  exists s,
    reachable alphintra_sections s /\ isAnimating s = false /\ currentStepRef s = 12.
Proof.
  destruct (every_step_reachable alphintra_sections 12) as (s & _ & Hreach & Hfree & Hcur).
  - vm_compute. lia.
  - exists s. split; [exact Hreach|]. split; [exact Hfree|exact Hcur].
Defined.

(** ** What the visibility flags can hold *)

Section FlagFacts.

Variable sections : list SectionData.

(** A step lies in the run of its section. *)
Lemma step_kind (i : Z) (step : Step) (sec : SectionData) :
  index (steps sections) i = Some step ->
  sections !! sectionIndex step = Some sec ->
  match subStep step with
  | title => True
  | detailStep => truthy_flag (isPortfolio sec) = false /\ truthy_detail (detail sec) = true
  | portfolio => truthy_flag (isPortfolio sec) = true
  end.
Proof.
  intros Hstep Hsec.
  assert (Hin : step ∈ steps sections).
  { unfold index in Hstep. destruct (i <? 0); [discriminate|].
    eapply list_elem_of_lookup_2, Hstep. }
  destruct (build_steps_at sections (sectionIndex step) sec Hsec) as [Hsplit Hbefore].
  unfold steps in Hin. rewrite Hsplit in Hin.
  apply elem_of_app in Hin. destruct Hin as [Hin|Hin].
  { rewrite Forall_forall in Hbefore. specialize (Hbefore _ Hin). simpl in Hbefore. lia. }
  apply elem_of_app in Hin. destruct Hin as [Hin|Hin].
  - rewrite section_run_cases in Hin.
    destruct (truthy_flag (isPortfolio sec)); [|destruct (truthy_detail (detail sec))];
      repeat (apply elem_of_cons in Hin; destruct Hin as [->|Hin]); cbn; auto;
      inversion Hin.
  - pose proof (forEach_push_bounds (drop (S (sectionIndex step)) sections)
                  (S (sectionIndex step))) as Hafter.
    rewrite Forall_forall in Hafter. specialize (Hafter _ Hin). simpl in Hafter. lia.
Qed.

Lemma goToStep_flags_have_steps dom t s s' e :
  flags_have_steps sections s -> goToStep sections dom t s = Ok (s', e) ->
  flags_have_steps sections s'.
Proof.
  intros Hinv Hgo.
  destruct (goToStep_Ok_cases _ _ _ _ _ _ Hgo)
    as [(-> & _)|(Hfree & Hne & step & sec & Hstep & Hsec)]; [exact Hinv|].
  destruct (goToStep_commit sections dom t s step sec Hfree Hne Hstep Hsec)
    as (a & et & _ & Heq).
  cbn zeta in Heq. rewrite Heq in Hgo.
  pose proof (step_kind _ step sec Hstep Hsec) as Hkind.
  destruct Hinv as [Hdet Hport].
  assert (Hgoal : forall s4,
             visibleDetails s4 =
               match subStep step with
               | title => visibleDetails s ∖ {[sectionIndex step]}
               | detailStep => {[sectionIndex step]} ∪ visibleDetails s
               | portfolio => visibleDetails s
               end ->
             portfolioVisible s4 =
               match subStep step with
               | title => if truthy_flag (isPortfolio sec) then false else portfolioVisible s
               | detailStep => portfolioVisible s
               | portfolio => true
               end ->
             flags_have_steps sections s4).
  { intros s4 Hv Hp. split.
    - intros i Hi. rewrite Hv in Hi. destruct (subStep step).
      + apply elem_of_difference in Hi. apply Hdet, Hi.
      + apply elem_of_union in Hi. destruct Hi as [Hi|Hi]; [|apply Hdet, Hi].
        apply elem_of_singleton in Hi. subst i. exists sec. tauto.
      + apply Hdet, Hi.
    - intros Hvis. rewrite Hp in Hvis. destruct (subStep step).
      + destruct (truthy_flag (isPortfolio sec)); [discriminate|apply Hport, Hvis].
      + apply Hport, Hvis.
      + exists (sectionIndex step), sec. auto. }
  destruct (getSectionElements dom (sectionIndex step)); injection Hgo as <- <-;
    apply Hgoal; reflexivity.
Qed.

Lemma goToStep_flags_match_step dom t s s' e :
  flags_match_step sections s -> goToStep sections dom t s = Ok (s', e) ->
  flags_match_step sections s'.
Proof.
  intros Hinv Hgo.
  destruct (goToStep_Ok_cases _ _ _ _ _ _ Hgo)
    as [(-> & _)|(Hfree & Hne & step & sec & Hstep & Hsec)]; [exact Hinv|].
  destruct (goToStep_commit sections dom t s step sec Hfree Hne Hstep Hsec)
    as (a & et & _ & Heq).
  cbn zeta in Heq. rewrite Heq in Hgo.
  assert (Hgoal : forall s4,
             currentStepRef s4 = clamp_step sections t ->
             visibleDetails s4 =
               match subStep step with
               | title => visibleDetails s ∖ {[sectionIndex step]}
               | detailStep => {[sectionIndex step]} ∪ visibleDetails s
               | portfolio => visibleDetails s
               end ->
             portfolioVisible s4 =
               match subStep step with
               | title => if truthy_flag (isPortfolio sec) then false else portfolioVisible s
               | detailStep => portfolioVisible s
               | portfolio => true
               end ->
             flags_match_step sections s4).
  { intros s4 Hc Hv Hp st sec' Hst Hsec'. rewrite Hc, Hstep in Hst.
    assert (st = step) as -> by congruence.
    assert (sec' = sec) as -> by congruence.
    rewrite Hv, Hp. destruct (subStep step).
    - split.
      + rewrite elem_of_difference, elem_of_singleton. tauto.
      + intros ->. reflexivity.
    - apply elem_of_union_l, elem_of_singleton. reflexivity.
    - reflexivity. }
  destruct (getSectionElements dom (sectionIndex step)); injection Hgo as <- <-;
    apply Hgoal; reflexivity.
Qed.

Lemma reachable_flags s :
  reachable sections s -> flags_have_steps sections s /\ flags_match_step sections s.
Proof.
  intros Hreach. split.
  - refine (reachable_from_preserves sections (flags_have_steps sections) _ _ s _ Hreach).
    + intros dom ev s0 s0' e HP Hen.
      apply handle_preserves; try (intros; assumption).
      intros dom0 t s1 s1' e1. apply goToStep_flags_have_steps.
    + split; cbn; [intros i Hi; apply not_elem_of_empty in Hi; contradiction|discriminate].
  - refine (reachable_from_preserves sections (flags_match_step sections) _ _ s _ Hreach).
    + intros dom ev s0 s0' e HP Hen.
      apply handle_preserves; try (intros; assumption).
      intros dom0 t s1 s1' e1. apply goToStep_flags_match_step.
    + intros step sec Hstep Hsec. apply first_step_title in Hstep. rewrite Hstep.
      cbn. split; [apply not_elem_of_empty|reflexivity].
Qed.

End FlagFacts.

(** X20. In every reachable state, [visibleDetails] holds only indices
    of sections that have a detail step (a truthy detail and no
    portfolio flag), so a detail card is rendered for each of them; and
    [portfolioVisible] is set only on a page that has a portfolio
    section. *)
Theorem visible_details_have_cards (sections : list SectionData) (s : State) (i : nat) :
  reachable sections s ->
  (i ∈ visibleDetails s ->
   exists sec,
     sections !! i = Some sec
     /\ truthy_flag (isPortfolio sec) = false
     /\ truthy_detail (detail sec) = true
     /\ detailActive s i = true)
  /\ (portfolioVisible s = true ->
      exists j sec, sections !! j = Some sec /\ truthy_flag (isPortfolio sec) = true).
Proof.
  intros Hreach. destruct (reachable_flags sections s Hreach) as [[Hdet Hport] _].
  split; [|exact Hport].
  intros Hi. destruct (Hdet i Hi) as (sec & Hsec & Hflag & Hdetail).
  exists sec. split; [exact Hsec|]. split; [exact Hflag|]. split; [exact Hdetail|].
  unfold detailActive. apply bool_decide_eq_true. exact Hi.
Qed.

Lemma visible_details_have_cards_witness :
  exists sec,
    alphintra_sections !! 2%nat = Some sec
    /\ truthy_detail (detail sec) = true.
Proof.
  destruct (visible_details_have_cards alphintra_sections
              (state_after alphintra_sections browse_to_second_detail) 2 browse_reachable)
    as (Hdet & _).
  destruct Hdet as (sec & Hsec & _ & Hdetail & _).
  - vm_compute. reflexivity.
  - exists sec. split; [exact Hsec|exact Hdetail].
Defined.

(** X21. In every reachable state the title of the current section is
    hidden exactly when the page rests on the detail step or on the
    gallery step of that section: on a detail step the detail card of
    the section is shown, on the gallery step the gallery overlay is
    shown, and on a title step neither is. *)
Theorem title_hidden_off_title_step
    (sections : list SectionData) (s : State) (step : Step) (sec : SectionData) :
  reachable sections s ->
  index (steps sections) (currentStepRef s) = Some step ->
  sections !! sectionIndex step = Some sec ->
  currentSectionIndex sections s = sectionIndex step
  /\ hideTitle sec s (sectionIndex step) = negb (bool_decide (subStep step = title))
  /\ detailActive s (sectionIndex step) = bool_decide (subStep step = detailStep)
  /\ portfolioActive sec s = bool_decide (subStep step = portfolio).
Proof.
  intros Hreach Hstep Hsec.
  destruct (reachable_flags sections s Hreach) as [[Hdet _] Hmatch].
  destruct (reachable_current_in_range _ _ Hreach) as [Hsame _].
  specialize (Hmatch step sec Hstep Hsec).
  pose proof (step_kind sections _ step sec Hstep Hsec) as Hkind.
  assert (Hcur : currentSectionIndex sections s = sectionIndex step).
  { unfold currentSectionIndex. rewrite Hsame, Hstep. reflexivity. }
  assert (Hflags : detailActive s (sectionIndex step) = bool_decide (subStep step = detailStep)
                   /\ portfolioActive sec s = bool_decide (subStep step = portfolio)).
  { unfold detailActive, portfolioActive. destruct (subStep step) eqn:Hk.
    - destruct Hmatch as [Hnot Hport]. split.
      + rewrite bool_decide_eq_false_2 by exact Hnot. reflexivity.
      + destruct (truthy_flag (isPortfolio sec)); [|reflexivity].
        rewrite (Hport eq_refl). reflexivity.
    - destruct Hkind as [Hflag _]. split.
      + rewrite bool_decide_eq_true_2 by exact Hmatch. reflexivity.
      + rewrite Hflag. reflexivity.
    - split.
      + destruct (decide (sectionIndex step ∈ visibleDetails s)) as [Hin|Hout].
        * destruct (Hdet _ Hin) as (sec' & Hsec' & Hflag' & _). congruence.
        * rewrite bool_decide_eq_false_2 by exact Hout. reflexivity.
      + rewrite Hkind, Hmatch. reflexivity. }
  destruct Hflags as [Hd Hp].
  split; [exact Hcur|]. split; [|split; [exact Hd|exact Hp]].
  unfold hideTitle. rewrite Hd, Hp. destruct (subStep step); reflexivity.
Qed.

Lemma title_hidden_off_title_step_witness :
  hideTitle {| section_id := "web"; detail := Some DetailElement; isPortfolio := None |}
    (state_after alphintra_sections browse_to_second_detail) 2 = true.
Proof.
  destruct (title_hidden_off_title_step alphintra_sections
              (state_after alphintra_sections browse_to_second_detail)
              {| sectionIndex := 2; subStep := detailStep |}
              {| section_id := "web"; detail := Some DetailElement; isPortfolio := None |}
              browse_reachable) as (_ & Hhide & _).
  - vm_compute. reflexivity.
  - reflexivity.
  - exact Hhide.
Defined.

(** ** The text animations *)

Section TextFacts.

Variable sections : list SectionData.

(** What [animateSectionChange] does, case by case. *)
Lemma animateSectionChange_text dom fromStep toStep s s' e t :
  index (steps sections) toStep = Some t ->
  animateSectionChange sections dom fromStep toStep s = Ok (s', e) ->
  (forall i w, TextOut i w ∈ e ->
     (exists f, index (steps sections) fromStep = Some f /\ sectionIndex f = i)
     /\ i <> sectionIndex t
     /\ i ∈ activeTextSections s /\ (i ∉ activeTextSections s')
     /\ w = (if fromStep <? toStep then down else up))
  /\ (forall i h, TextIn i h ∈ e ->
        i = sectionIndex t /\ subStep t = title
        /\ (i ∉ activeTextSections s) /\ i ∈ activeTextSections s'
        /\ h = (i =? 0)%nat)
  /\ (forall x, x ∈ e -> is_text_effect x)
  /\ (e = [] -> s' = s).
Proof.
  intros Hto. unfold animateSectionChange, animateTextOut, animateTextIn. rewrite Hto.
  set (way := if fromStep <? toStep then down else up).
  destruct (index (steps sections) fromStep) as [f|];
    repeat match goal with
      | |- context [decide ?P] => destruct (decide P)
      | |- context [getSectionElements ?d ?i] => destruct (getSectionElements d i)
      | |- context [(chars ?x =? 0)%nat] => destruct (chars x =? 0)%nat
      | |- context [match subStep t with _ => _ end] => destruct (subStep t) eqn:?
      end;
    cbn [fst snd app activeTextSections set_activeTextSections];
    intros [= <- <-];
    cbn [fst snd app activeTextSections set_activeTextSections];
    (split; [|split; [|split]]);
    try (intros i w Hin); try (intros i h Hin); try (intros x Hin); try (intros Hnil);
    repeat match goal with
      | H : _ ∈ [] |- _ => inversion H
      | H : _ ∈ _ :: _ |- _ => apply elem_of_cons in H; destruct H as [H|H]
      | H : TextOut _ _ = TextOut _ _ |- _ => injection H as -> ->
      | H : TextIn _ _ = TextIn _ _ |- _ => injection H as -> ->
      | H : TextOut _ _ = TextIn _ _ |- _ => discriminate H
      | H : TextIn _ _ = TextOut _ _ |- _ => discriminate H
      | H : _ :: _ = [] |- _ => discriminate H
      end;
    subst; try exact I; try reflexivity;
    cbn [fst snd activeTextSections set_activeTextSections] in *;
    try (repeat split; eauto;
         rewrite ?elem_of_union, ?elem_of_difference, ?elem_of_singleton in *;
         try tauto; try congruence; intuition congruence).
Qed.

End TextFacts.

Section TextOfGoTo.

Variable sections : list SectionData.

(** An accepted [goToStep] call, taken apart: the text effects of the
    section change, then the scroll command. *)
Lemma goToStep_text dom t s s' e :
  isAnimating s = false ->
  clamp_step sections t <> currentStepRef s ->
  goToStep sections dom t s = Ok (s', e) ->
  exists to s2 s3 e_text,
    index (steps sections) (clamp_step sections t) = Some to
    /\ activeTextSections s2 = activeTextSections s
    /\ animateSectionChange sections dom (currentStepRef s) (clamp_step sections t) s2
       = Ok (s3, e_text)
    /\ activeTextSections s' = activeTextSections s3
    /\ (e_text = [] -> s3 = s2 -> activeTextSections s' = activeTextSections s)
    /\ e = e_text ++ match getSectionElements dom (sectionIndex to) with
                     | Some targetEl => [ScrollTo (offsetTop targetEl)]
                     | None => []
                     end.
Proof.
  intros Hfree Hne Hgo.
  destruct (goToStep_Ok_cases _ _ _ _ _ _ Hgo)
    as [(_ & _ & [Hl|Heq])|(_ & _ & to & sec & Hstep & Hsec)];
    [congruence|contradiction|].
  unfold goToStep in Hgo.
  destruct (Z.eqb_spec (clamp_step sections t) (currentStepRef s)); [contradiction|].
  rewrite Hfree, Hstep, (update_visibility_eq _ _ _ _ Hsec) in Hgo.
  cbn [and_then] in Hgo.
  match type of Hgo with
  | context [animateSectionChange sections dom ?f ?c ?s0] =>
      destruct (animateSectionChange sections dom f c s0) as [[s3 et]|] eqn:Hanim;
      [exists to, s0, s3, et|discriminate]
  end.
  cbn [and_then] in Hgo. rewrite scroll_to_section_eq in Hgo.
  split; [exact Hstep|]. split; [reflexivity|]. split; [exact Hanim|].
  destruct (getSectionElements dom (sectionIndex to)); injection Hgo as <- <-;
    (split; [reflexivity|]); (split; [intros _ ->; reflexivity|]); reflexivity.
Qed.

End TextOfGoTo.

(** X22. The text animations of an accepted [goToStep] call follow
    [activeTextSections]. An exit animation is fired only for the
    section of the departing step, only when the arriving step belongs
    to another section and only when that text was in; its direction is
    down when the target index is larger and up otherwise, and the
    section is out afterwards. An entrance animation is fired only for
    the section of an arriving title step, only when its text was not
    in, as the hero entrance exactly for section 0, and the section is
    in afterwards. *)
Theorem text_animations_follow_active
    (sections : list SectionData) (dom : Dom) (t : Z) (s s' : State)
    (e : list Effect) (from : Step) :
  isAnimating s = false ->
  clamp_step sections t <> currentStepRef s ->
  index (steps sections) (currentStepRef s) = Some from ->
  goToStep sections dom t s = Ok (s', e) ->
  exists to,
    index (steps sections) (clamp_step sections t) = Some to
    /\ (forall i w, TextOut i w ∈ e ->
          i = sectionIndex from /\ i <> sectionIndex to
          /\ i ∈ activeTextSections s /\ (i ∉ activeTextSections s')
          /\ w = (if currentStepRef s <? clamp_step sections t then down else up))
    /\ (forall i h, TextIn i h ∈ e ->
          i = sectionIndex to /\ subStep to = title
          /\ (i ∉ activeTextSections s) /\ i ∈ activeTextSections s'
          /\ h = (i =? 0)%nat).
Proof.
  intros Hfree Hne Hfrom Hgo.
  destruct (goToStep_text sections dom t s s' e Hfree Hne Hgo)
    as (to & s2 & s3 & et & Hto & Hact2 & Hanim & Hact' & _ & He).
  destruct (animateSectionChange_text sections dom _ _ s2 s3 et to Hto Hanim)
    as (Hout & Hin & _ & _).
  assert (Htext : forall x, (exists i w, x = TextOut i w) \/ (exists i h, x = TextIn i h) ->
                            x ∈ e -> x ∈ et).
  { intros x Hx Hmem. rewrite He in Hmem. apply elem_of_app in Hmem.
    destruct Hmem as [Hmem|Hmem]; [exact Hmem|].
    destruct (getSectionElements dom (sectionIndex to));
      [apply list_elem_of_singleton in Hmem|inversion Hmem].
    destruct Hx as [(i & w & ->)|(i & h & ->)]; discriminate. }
  exists to. split; [exact Hto|]. split.
  - intros i w Hmem. apply Htext in Hmem; [|eauto].
    destruct (Hout i w Hmem) as ((f & Hf & Hi) & Hdiff & Ha & Hna & Hw).
    rewrite Hfrom in Hf. injection Hf as <-.
    rewrite Hact2 in Ha. rewrite <- Hact' in Hna. auto.
  - intros i h Hmem. apply Htext in Hmem; [|eauto].
    destruct (Hin i h Hmem) as (Hi & Hk & Hna & Ha & Hh).
    rewrite Hact2 in Hna. rewrite <- Hact' in Ha. auto.
Qed.

Lemma text_animations_follow_active_witness :
  exists s' e,
    goToStep alphintra_sections (page 10) 3 (initial_state alphintra_sections) = Ok (s', e)
    /\ TextIn 2 false ∈ e
    /\ 2%nat ∈ activeTextSections s'.
Proof.
  assert (Hrun : exists s',
             goToStep alphintra_sections (page 10) 3 (initial_state alphintra_sections)
             = Ok (s', [TextIn 2 false; ScrollTo 2000])).
  { eexists. vm_compute. reflexivity. }
  destruct Hrun as (s' & Hgo).
  destruct (text_animations_follow_active alphintra_sections (page 10) 3
              (initial_state alphintra_sections) s' [TextIn 2 false; ScrollTo 2000]
              {| sectionIndex := 0; subStep := title |} eq_refl)
    as (to & _ & _ & Hin).
  - vm_compute. discriminate.
  - reflexivity.
  - exact Hgo.
  - assert (Hmem : TextIn 2 false ∈ [TextIn 2 false; ScrollTo 2000])
      by (apply elem_of_cons; left; reflexivity).
    destruct (Hin 2%nat false Hmem) as (_ & _ & _ & Hactive & _).
    exists s', [TextIn 2 false; ScrollTo 2000].
    split; [exact Hgo|]. split; [exact Hmem|exact Hactive].
Defined.

(** X23. A transition between two steps of one section fires no text
    animation when it arrives at the detail or gallery step, and none
    when it arrives back at the title step while the text of the
    section is in: the one effect is the scroll command, and
    [activeTextSections] is as before. *)
Theorem same_section_fires_no_text
    (sections : list SectionData) (dom : Dom) (t : Z) (s s' : State)
    (e : list Effect) (from to : Step) :
  isAnimating s = false ->
  clamp_step sections t <> currentStepRef s ->
  index (steps sections) (currentStepRef s) = Some from ->
  index (steps sections) (clamp_step sections t) = Some to ->
  sectionIndex from = sectionIndex to ->
  subStep to <> title \/ sectionIndex to ∈ activeTextSections s ->
  goToStep sections dom t s = Ok (s', e) ->
  activeTextSections s' = activeTextSections s
  /\ e = match getSectionElements dom (sectionIndex to) with
         | Some targetEl => [ScrollTo (offsetTop targetEl)]
         | None => []
         end.
Proof.
  intros Hfree Hne Hfrom Hto Hsame Hquiet Hgo.
  destruct (goToStep_text sections dom t s s' e Hfree Hne Hgo)
    as (to' & s2 & s3 & et & Hto' & Hact2 & Hanim & Hact' & Hkeep & He).
  assert (to' = to) as -> by congruence.
  destruct (animateSectionChange_text sections dom _ _ s2 s3 et to Hto Hanim)
    as (Hout & Hin & Htext & Hnil).
  assert (Het : et = []).
  { destruct et as [|x rest]; [reflexivity|]. exfalso.
    assert (Hx : x ∈ x :: rest) by (apply elem_of_cons; left; reflexivity).
    pose proof (Htext x Hx) as Hkind. destruct x; try contradiction.
    - destruct (Hin _ _ Hx) as (-> & Htitle & Hna & _).
      rewrite Hact2 in Hna. destruct Hquiet as [Hq|Hq]; [congruence|contradiction].
    - destruct (Hout _ _ Hx) as ((f & Hf & Hi) & Hdiff & _).
      rewrite Hfrom in Hf. injection Hf as <-. congruence. }
  subst et. split; [|exact He].
  apply Hkeep; [reflexivity|]. apply Hnil. reflexivity.
Qed.

Lemma same_section_fires_no_text_witness :
  exists s',
    goToStep alphintra_sections (page 10) 2 (set_current 1 (initial_state alphintra_sections))
    = Ok (s', [ScrollTo 1000]).
Proof.
  assert (Hrun : exists s' e,
             goToStep alphintra_sections (page 10) 2
               (set_current 1 (initial_state alphintra_sections)) = Ok (s', e)).
  { eexists _, _. vm_compute. reflexivity. }
  destruct Hrun as (s' & e & Hgo).
  exists s'.
  destruct (same_section_fires_no_text alphintra_sections (page 10) 2
              (set_current 1 (initial_state alphintra_sections)) s' e
              {| sectionIndex := 1; subStep := title |}
              {| sectionIndex := 1; subStep := detailStep |} eq_refl) as (_ & He).
  - vm_compute. discriminate.
  - reflexivity.
  - reflexivity.
  - reflexivity.
  - left. discriminate.
  - exact Hgo.
  - rewrite Hgo, He. reflexivity.
Defined.

(** ** The seeded generator *)

Lemma rand_next_range (s : Z) :
  0 < s < rand_modulus -> 0 < rand_next s < rand_modulus.
Proof.
  intros Hs. unfold rand_next. rewrite Z.add_0_r.
  rewrite Z.rem_mod_nonneg by (unfold rand_modulus; lia).
  pose proof (Z.mod_pos_bound (s * 16807) rand_modulus ltac:(unfold rand_modulus; lia))
    as Hbound.
  assert (Hnz : (s * 16807) mod rand_modulus <> 0).
  { intros Hz. apply Z.mod_divide in Hz; [|unfold rand_modulus; lia].
    rewrite Z.mul_comm in Hz.
    apply Z.gauss in Hz; [|vm_compute; reflexivity].
    apply Z.divide_pos_le in Hz; lia. }
  lia.
Qed.

(** X24. Seeded with a number strictly between 0 and 2147483647, the
    generator never leaves that range: after any number of calls its
    state is again strictly between 0 and the modulus, so every value
    it returns lies strictly between 0 and 1. Seeded with 0 it returns 0
    for ever. *)
Theorem rand_stays_in_range (seed : Z) (n : nat) :
  0 < seed < rand_modulus ->
  0 < rand_state seed n < rand_modulus
  /\ (0 < rand_value seed n)%Q /\ (rand_value seed n < 1)%Q
  /\ rand_state 0 n = 0.
Proof.
  intros Hseed.
  assert (Hstate : 0 < rand_state seed n < rand_modulus).
  { induction n as [|n IH]; [exact Hseed|]. cbn [rand_state]. apply rand_next_range, IH. }
  assert (Hm : (0 < inject_Z rand_modulus)%Q) by (vm_compute; reflexivity).
  split; [exact Hstate|]. unfold rand_value. split; [|split].
  - apply Qlt_shift_div_l; [exact Hm|]. rewrite Qmult_0_l.
    change 0%Q with (inject_Z 0). rewrite <- Zlt_Qlt. lia.
  - apply Qlt_shift_div_r; [exact Hm|]. rewrite Qmult_1_l.
    rewrite <- Zlt_Qlt. lia.
  - clear. induction n as [|n IH]; [reflexivity|]. cbn [rand_state]. rewrite IH. reflexivity.
Qed.

Lemma rand_stays_in_range_witness :
  0 < rand_state 42 3 < rand_modulus /\ rand_state 42 1 = 705894.
Proof.
  destruct (rand_stays_in_range 42 3) as (Hstate & _).
  - vm_compute. split; reflexivity.
  - split; [exact Hstate|]. vm_compute. reflexivity.
Defined.
